(** * cloudshell.snmp.snmp_autoload: the AutoLoad class

    A shallow embedding of [AutoLoad] (hierarchy reconstruction over the
    ENTITY-MIB physical table and port-to-interface mapping), followed by
    the properties of it that the specification states. *)

From Stdlib Require Import ZArith String Ascii List Lia.
From stdpp Require Import gmap strings list.

Local Open Scope Z_scope.
Local Open Scope string_scope.

(** ** Python values and exceptions *)

(** The key carried by a [KeyError]: table rows are indexed by integers, the
    class-level rule dictionary by strings. *)
Inductive key :=
| IntKey (k : Z)
| StrKey (s : string).

Inductive value_error :=
| Unpack (got : nat)          (* a sequence of [got] values unpacked into two names *)
| IntLiteral (s : string).    (* int(s) on a string that is no integer literal *)

(** The built-in exceptions the module can raise.  It defines no exception
    class of its own. *)
Inductive exn :=
| KeyError (k : key)
| ValueError (v : value_error)
| IndexError                  (* list index out of range *)
| RuntimeError.               (* maximum recursion depth exceeded *)

Inductive result (A : Type) :=
| Ok (a : A)
| Raise (e : exn).
Arguments Ok {A} a.
Arguments Raise {A} e.

Definition bind {A B} (r : result A) (f : A -> result B) : result B :=
  match r with
  | Ok a => f a
  | Raise e => Raise e
  end.

Declare Scope res_scope.
Delimit Scope res_scope with res.
Notation "x <- c1 ;; c2" := (bind c1 (fun x => c2))
  (at level 100, c1 at next level, right associativity) : res_scope.

#[global] Instance key_eq_dec : EqDecision key.
Proof. solve_decision. Defined.
#[global] Instance value_error_eq_dec : EqDecision value_error.
Proof. solve_decision. Defined.
#[global] Instance exn_eq_dec : EqDecision exn.
Proof. solve_decision. Defined.

(** ** Tables *)

(** A walked SNMP table is an ordered dictionary from the row index to the
    row.  Iteration follows the list; subscripting returns the row stored
    under the index. *)
Definition table (R : Type) := list (Z * R).

Fixpoint table_get {R} (t : table R) (k : Z) : option R :=
  match t with
  | [] => None
  | (k', r) :: t' => if bool_decide (k' = k) then Some r else table_get t' k
  end.

(** [t[k]] *)
Definition getitem {R} (t : table R) (k : Z) : result R :=
  match table_get t k with
  | Some r => Ok r
  | None => Raise (KeyError (IntKey k))
  end.

Definition keys {R} (t : table R) : list Z := map fst t.
Definition values {R} (t : table R) : list R := map snd t.
Definition items {R} (t : table R) : list (Z * R) := t.

(** [d[k] = v] on an ordered dictionary: an existing key keeps its place and
    takes the new value, a new key goes last. *)
Fixpoint setitem {R} (d : table R) (k : Z) (v : R) : table R :=
  match d with
  | [] => [(k, v)]
  | (k', r) :: d' =>
      if bool_decide (k' = k) then (k', v) :: d' else (k', r) :: setitem d' k v
  end.

(** [dict(pairs)].  Python leaves the iteration order of a plain dict open;
    here it is the order in which the keys were first inserted. *)
Definition dict {R} (pairs : list (Z * R)) : table R :=
  fold_left (fun d kv => setitem d (fst kv) (snd kv)) pairs [].

(** Rows of entPhysicalTable.  The columns read through [int(...)] hold
    integers. *)
Record entity := {
  suffix : Z;
  entPhysicalClass : string;
  entPhysicalContainedIn : Z;
  entPhysicalDescr : string
}.

(** Rows of ifTable. *)
Record interface := {
  if_suffix : Z;
  ifDescr : string
}.

(** Rows of entAliasMappingTable. *)
Record alias := {
  entAliasMappingIdentifier : string
}.

#[global] Instance entity_eq_dec : EqDecision entity.
Proof. solve_decision. Defined.
#[global] Instance interface_eq_dec : EqDecision interface.
Proof. solve_decision. Defined.

(** Modelled from the spec: QualiMibTable.filter_by_column is not part of
    this module.  "filterByClass(table, class) returns the ordered subset of
    rows whose class column equals the given value", the column name being
    completed with the table's prefix ('Class' is entPhysicalClass). *)
Definition column (name : string) (e : entity) : option string :=
  if bool_decide (name = "Class") then Some (entPhysicalClass e)
  else if bool_decide (name = "Descr") then Some (entPhysicalDescr e)
  else None.

Definition filter_by_column (name value : string) (t : table entity) : table entity :=
  List.filter (fun kv => bool_decide (column name (snd kv) = Some value)) t.

(** ** The parent rule table *)

(** [AutoLoad.autolad_parents]; the class names carry their quotes, as the
    SNMP layer delivers them. *)
Definition autolad_parents : list (string * list string) :=
  [ ("'port'", ["'module'"; "'chassis'"]);
    ("'powerSupply'", ["'chassis'"]);
    ("'module'", ["'chassis'"]);
    ("'container'", ["'chassis'"]);
    ("'chassis'", []) ].

Fixpoint assoc (d : list (string * list string)) (c : string) : option (list string) :=
  match d with
  | [] => None
  | (c', l) :: d' => if bool_decide (c' = c) then Some l else assoc d' c
  end.

(** [autolad_parents[c]] *)
Definition autolad_parents_getitem (c : string) : result (list string) :=
  match assoc autolad_parents c with
  | Some l => Ok l
  | None => Raise (KeyError (StrKey c))
  end.

(** ** The SNMP collaborator and the AutoLoad object *)

(** Modelled from the spec: the QualiSnmp class is not part of this module.
    "table(name) returns the full indexed collection for a named SNMP
    table"; the tables of the device are a fixed snapshot, and [walks]
    records, oldest first, the (MIB, table) pairs fetched from the device. *)
Record QualiSnmp := {
  device_entPhysicalTable : table entity;
  device_ifTable : table interface;
  device_entAliasMappingTable : table alias;
  walks : list (string * string)
}.

Definition walked (name : string * string) (q : QualiSnmp) : QualiSnmp :=
  {| device_entPhysicalTable := device_entPhysicalTable q;
     device_ifTable := device_ifTable q;
     device_entAliasMappingTable := device_entAliasMappingTable q;
     walks := (walks q ++ [name])%list |}.

(** The attributes [__init__] sets (the logger only receives messages). *)
Record AutoLoad := {
  snmp : QualiSnmp;
  _entPhysicalTable : option (table entity);
  _ifTable : option (table interface)
}.

(** [AutoLoad(snmp, logger)] *)
Definition init (q : QualiSnmp) : AutoLoad :=
  {| snmp := q; _entPhysicalTable := None; _ifTable := None |}.

(** A method body: it reads and updates [self], and returns or raises.
    What a call changed before it raised stays changed. *)
Definition M (A : Type) := AutoLoad -> result A * AutoLoad.

Definition ret {A} (a : A) : M A := fun self => (Ok a, self).
Definition lift {A} (r : result A) : M A := fun self => (r, self).
Definition bindM {A B} (m : M A) (f : A -> M B) : M B :=
  fun self =>
    match m self with
    | (Ok a, self') => f a self'
    | (Raise e, self') => (Raise e, self')
    end.

Declare Scope py_scope.
Delimit Scope py_scope with py.
Notation "x <- c1 ;; c2" := (bindM c1 (fun x => c2))
  (at level 100, c1 at next level, right associativity) : py_scope.

(** [for x in xs: acc = body(acc, x)] *)
Fixpoint for_each {A S} (xs : list A) (acc : S) (body : S -> A -> M S) : M S :=
  match xs with
  | [] => ret acc
  | x :: xs' => (acc' <- body acc x ;; for_each xs' acc' body)%py
  end.

(** Modelled from the spec: QualiSnmp.walk is not part of this module.
    [self.snmp.walk((module, name))] fetches the named table from the
    device; [select] says which table of the snapshot the name denotes. *)
Definition walk {R} (name : string * string) (select : QualiSnmp -> table R)
    : M (table R) := fun self =>
  (Ok (select (snmp self)),
   {| snmp := walked name (snmp self);
      _entPhysicalTable := _entPhysicalTable self; _ifTable := _ifTable self |}).

(** [AutoLoad.get_table]: the walk, between two debug messages. *)
Definition get_table {R} (snmp_module_name table_name : string)
    (select : QualiSnmp -> table R) : M (table R) :=
  (ret_value <- walk (snmp_module_name, table_name) select ;;
   ret ret_value)%py.

Definition set_entPhysicalTable (t : table entity) : M unit := fun self =>
  (Ok tt, {| snmp := snmp self; _entPhysicalTable := Some t; _ifTable := _ifTable self |}).

Definition set_ifTable (t : table interface) : M unit := fun self =>
  (Ok tt, {| snmp := snmp self; _entPhysicalTable := _entPhysicalTable self; _ifTable := Some t |}).

(** The [entPhysicalTable] property. *)
Definition entPhysicalTable : M (table entity) := fun self =>
  match _entPhysicalTable self with
  | None =>
      (t <- get_table "ENTITY-MIB" "entPhysicalTable" device_entPhysicalTable ;;
       _ <- set_entPhysicalTable t ;;
       ret t)%py self
  | Some t => (Ok t, self)
  end.

(** The [ifTable] property. *)
Definition ifTable : M (table interface) := fun self =>
  match _ifTable self with
  | None =>
      (t <- get_table "IF-MIB" "ifTable" device_ifTable ;;
       _ <- set_ifTable t ;;
       ret t)%py self
  | Some t => (Ok t, self)
  end.

(** ** Ancestor resolution *)

(** [get_parent] and [get_parents] are recursive Python methods, so every
    call takes a frame of the interpreter's bounded stack: [frames] is the
    number of frames still free for them, and a call with none left raises
    RuntimeError. *)

(** [AutoLoad.get_parent] *)
Fixpoint get_parent (frames : nat) (e : entity) : M entity :=
  match frames with
  | O => lift (Raise RuntimeError)
  | S frames' =>
      (t <- entPhysicalTable ;;
       parent <- lift (getitem t (entPhysicalContainedIn e)) ;;
       valid <- lift (autolad_parents_getitem (entPhysicalClass e)) ;;
       if bool_decide (entPhysicalClass parent ∈ valid)
       then ret parent
       else get_parent frames' parent)%py
  end.

(** [AutoLoad.get_parents]; [_parents] is the chain collected so far. *)
Fixpoint get_parents (frames : nat) (e : entity) (_parents : list entity)
    : M (list entity) :=
  match frames with
  | O => lift (Raise RuntimeError)
  | S frames' =>
      let parents_l := (_parents ++ [e])%list in
      if bool_decide (entPhysicalClass e = "'chassis'")
      then ret parents_l
      else (parent <- get_parent frames' e ;;
            get_parents frames' parent parents_l)%py
  end.

(** ** The hierarchy *)

(** [parents[p]] *)
Definition index {A} (l : list A) (p : nat) : result A :=
  match l !! p with
  | Some x => Ok x
  | None => Raise IndexError
  end.

(** [range(hi, 0, -1)] *)
Definition range_down (hi : nat) : list nat := rev (seq 1 hi).

(** The body of the inner loop of [get_hierarchy]: an absent or empty child
    list is replaced by a fresh one, then the child is appended. *)
Definition record_edge (hierarchy : gmap Z (list Z)) (parent_index child : Z)
    : gmap Z (list Z) :=
  let children :=
    match hierarchy !! parent_index with
    | Some (c :: cs) => c :: cs
    | _ => []
    end in
  <[parent_index := (children ++ [child])%list]> hierarchy.

Fixpoint record_chain (ps : list nat) (parents : list entity)
    (hierarchy : gmap Z (list Z)) : result (gmap Z (list Z)) :=
  match ps with
  | [] => Ok hierarchy
  | p :: ps' =>
      (parent <- index parents p ;;
       child <- index parents (p - 1) ;;
       record_chain ps' parents
         (record_edge hierarchy (suffix parent) (suffix child)))%res
  end.

(** [list(set(children))]: the children without repetition.  Python leaves
    the order of a set open; the list is in the order of the finite set
    here, and nothing below depends on it. *)
Definition list_set (children : list Z) : list Z :=
  elements (list_to_set children : gset Z).

(** [AutoLoad.get_hierarchy] *)
Definition get_hierarchy (frames : nat) : M (gmap Z (list Z)) :=
  (t <- entPhysicalTable ;;
   let ports := filter_by_column "Class" "'port'" t in
   t' <- entPhysicalTable ;;
   let pss := filter_by_column "Class" "'powerSupply'" t' in
   hierarchy <- for_each (values (dict (items ports ++ items pss))) ∅
     (fun hierarchy entity =>
        parents <- get_parents frames entity [] ;;
        lift (record_chain (range_down (length parents - 1)) parents hierarchy)) ;;
   ret (list_set <$> hierarchy))%py.

(** ** Regular expressions *)

(** The two uses of [re]: [re.findall('\d+', s)], and [re.search] with a
    pattern assembled from ".*", digits and "/".  Patterns are read as
    sequences of single-character atoms, each optionally starred; "." is
    the only metacharacter besides "*". *)
Inductive atom :=
| AnyChar            (* "." : any character but a newline *)
| Lit (c : ascii).

Inductive piece :=
| One (a : atom)
| Star (a : atom).

Definition newline : ascii := ascii_of_nat 10.

Definition atom_of (c : ascii) : atom :=
  if bool_decide (c = "."%char) then AnyChar else Lit c.

Definition is_star (s : string) : bool :=
  match s with
  | String c _ => bool_decide (c = "*"%char)
  | EmptyString => false
  end.

Fixpoint compile (pat : string) : list piece :=
  match pat with
  | EmptyString => []
  | String c rest =>
      match rest with
      | String c' rest' =>
          if bool_decide (c' = "*"%char) then Star (atom_of c) :: compile rest'
          else One (atom_of c) :: compile rest
      | EmptyString => [One (atom_of c)]
      end
  end.

Definition atom_matches (a : atom) (c : ascii) : bool :=
  match a with
  | AnyChar => negb (bool_decide (c = newline))
  | Lit c' => bool_decide (c = c')
  end.

(** Does the pattern match at the start of [s]? *)
Fixpoint match_here (pat : list piece) (s : string) : bool :=
  match pat with
  | [] => true
  | One a :: pat' =>
      match s with
      | String c s' => atom_matches a c && match_here pat' s'
      | EmptyString => false
      end
  | Star a :: pat' =>
      (fix star (s : string) : bool :=
         match_here pat' s ||
         match s with
         | String c s' => atom_matches a c && star s'
         | EmptyString => false
         end) s
  end.

(** Does the pattern match at some position of [s]? *)
Fixpoint search (pat : list piece) (s : string) : bool :=
  match_here pat s ||
  match s with
  | String _ s' => search pat s'
  | EmptyString => false
  end.

(** [re.search(pattern, s)], as a truth value *)
Definition re_search (pattern s : string) : bool := search (compile pattern) s.

Definition is_digit (c : ascii) : bool :=
  (("0" <=? c)%char && (c <=? "9")%char)%bool.

(** [re.findall('\d+', s)]: the maximal runs of digits, left to right.
    [run] is the run being read. *)
Fixpoint findall_digits_from (run : string) (s : string) : list string :=
  match s with
  | EmptyString => if bool_decide (run = "") then [] else [run]
  | String c s' =>
      if is_digit c then findall_digits_from (run ++ String c "") s'
      else if bool_decide (run = "") then findall_digits_from "" s'
      else run :: findall_digits_from "" s'
  end.

Definition findall_digits (s : string) : list string := findall_digits_from "" s.

(** [a, b = values] *)
Definition unpack2 {A} (values : list A) : result (A * A) :=
  match values with
  | [a; b] => Ok (a, b)
  | _ => Raise (ValueError (Unpack (length values)))
  end.

(** [s.split('.')]; [cur] is the component being read. *)
Fixpoint split_dot_from (cur : string) (s : string) : list string :=
  match s with
  | EmptyString => [cur]
  | String c s' =>
      if bool_decide (c = "."%char) then cur :: split_dot_from "" s'
      else split_dot_from (cur ++ String c "") s'
  end.

Definition split_dot (s : string) : list string := split_dot_from "" s.

(** [l[-1]] *)
Definition last_item {A} (l : list A) : result A :=
  match rev l with
  | x :: _ => Ok x
  | [] => Raise IndexError
  end.

Fixpoint digits_value (acc : Z) (s : string) : option Z :=
  match s with
  | EmptyString => Some acc
  | String c s' =>
      if is_digit c
      then digits_value (10 * acc + (Z.of_nat (nat_of_ascii c) - 48)) s'
      else None
  end.

(** The characters [str.strip] and [int] take for blanks. *)
Definition is_blank (c : ascii) : bool :=
  let n := nat_of_ascii c in
  (Nat.eqb n 32 || (Nat.leb 9 n && Nat.leb n 13))%bool.

Fixpoint lstrip (s : string) : string :=
  match s with
  | String c s' => if is_blank c then lstrip s' else s
  | EmptyString => EmptyString
  end.

Fixpoint rstrip (s : string) : string :=
  match s with
  | String c s' =>
      let r := rstrip s' in
      if (is_blank c && bool_decide (r = ""))%bool then "" else String c r
  | EmptyString => EmptyString
  end.

(** [int(s)] for a string: the blanks around it are dropped, then an
    optional sign and decimal digits are read. *)
Definition py_int (s : string) : result Z :=
  let unsigned (d : string) : option Z :=
    if bool_decide (d = "") then None else digits_value 0 d in
  let parsed :=
    match rstrip (lstrip s) with
    | String c d =>
        if bool_decide (c = "-"%char) then Z.opp <$> unsigned d
        else if bool_decide (c = "+"%char) then unsigned d
        else unsigned (String c d)
    | EmptyString => None
    end in
  match parsed with
  | Some z => Ok z
  | None => Raise (ValueError (IntLiteral s))
  end.

(** ** The port to interface mapping *)

(** [AutoLoad._descr_based_mapping].  The [continue] that ends the body of
    the inner loop moves on to the next interface, as the end of the body
    does. *)
Definition _descr_based_mapping : M (table Z) :=
  (t <- entPhysicalTable ;;
   for_each (values (filter_by_column "Class" "'port'" t)) []
     (fun mapping port =>
        let entPhysicalDescr := entPhysicalDescr port in
        tokens <- lift (unpack2 (findall_digits entPhysicalDescr)) ;;
        let module_index := fst tokens in
        let port_index := snd tokens in
        let ifTable_re := ".*" ++ module_index ++ "/" ++ port_index in
        interfaces <- ifTable ;;
        for_each (values interfaces) mapping
          (fun mapping interface =>
             if re_search ifTable_re (ifDescr interface)
             then ret (setitem mapping (suffix port) (if_suffix interface))
             else ret mapping)))%py.

(** [AutoLoad.get_mapping] *)
Definition get_mapping : M (table Z) :=
  (entAliasMappingTable <- walk ("ENTITY-MIB", "entAliasMappingTable")
                                device_entAliasMappingTable ;;
   match entAliasMappingTable with
   | _ :: _ =>
       t <- entPhysicalTable ;;
       for_each (keys (filter_by_column "Class" "'port'" t)) []
         (fun mapping port =>
            row <- lift (getitem entAliasMappingTable port) ;;
            let entAliasMappingIdentifier := entAliasMappingIdentifier row in
            component <- lift (last_item (split_dot entAliasMappingIdentifier)) ;;
            i <- lift (py_int component) ;;
            ret (setitem mapping port i))
   | [] => _descr_based_mapping
   end)%py.

(** ** Well-formed tables *)

Definition is_chassis (e : entity) : bool :=
  bool_decide (entPhysicalClass e = "'chassis'").

(** [e] is a chassis, or its containment references lead to one in at most
    [n] steps. *)
Fixpoint reaches_chassis (n : nat) (t : table entity) (e : entity) : bool :=
  if is_chassis e then true
  else match n with
       | O => false
       | S n' =>
           match table_get t (entPhysicalContainedIn e) with
           | Some parent => reaches_chassis n' t parent
           | None => false
           end
       end.

(** Acyclic and chassis-rooted: every row leads to a chassis (a chain
    without a cycle is no longer than the table). *)
Definition well_formed (t : table entity) : bool :=
  forallb (reaches_chassis (length t) t) (values t).


(** Every row has one of the classes of the parent rule table. *)
Definition known_classes (t : table entity) : bool :=
  forallb (fun e => bool_decide (is_Some (assoc autolad_parents (entPhysicalClass e))))
          (values t).

(** Every row is stored under its own index. *)
Definition index_consistent (t : table entity) : bool :=
  forallb (fun kv => bool_decide (suffix (snd kv) = fst kv)) t.

(** What [get_parent] returns is a row of the table whose class is a valid
    parent class, hence module or chassis. *)
Definition parent_row (t : table entity) (p : entity) : Prop :=
  (exists k, table_get t k = Some p)
  /\ (entPhysicalClass p = "'module'" \/ entPhysicalClass p = "'chassis'").

(** ** The methods as functions of the table *)

(** The table the object reads: the cached one, or the device's when
    nothing is cached yet. *)
Definition the_table (self : AutoLoad) : table entity :=
  match _entPhysicalTable self with
  | Some t => t
  | None => device_entPhysicalTable (snmp self)
  end.

Definition the_ifTable (self : AutoLoad) : table interface :=
  match _ifTable self with
  | Some t => t
  | None => device_ifTable (snmp self)
  end.

(** The object once entPhysicalTable, resp. ifTable, has been read. *)
Definition load (self : AutoLoad) : AutoLoad := snd (entPhysicalTable self).
Definition load_if (self : AutoLoad) : AutoLoad := snd (ifTable self).

Fixpoint climb (frames : nat) (t : table entity) (e : entity) : result entity :=
  match frames with
  | O => Raise RuntimeError
  | S frames' =>
      (parent <- getitem t (entPhysicalContainedIn e) ;;
       valid <- autolad_parents_getitem (entPhysicalClass e) ;;
       if bool_decide (entPhysicalClass parent ∈ valid)
       then Ok parent
       else climb frames' t parent)%res
  end.

Fixpoint chain (frames : nat) (t : table entity) (e : entity)
    (parents : list entity) : result (list entity) :=
  match frames with
  | O => Raise RuntimeError
  | S frames' =>
      if bool_decide (entPhysicalClass e = "'chassis'")
      then Ok (parents ++ [e])%list
      else (parent <- climb frames' t e ;;
            chain frames' t parent (parents ++ [e])%list)%res
  end.

Fixpoint record_leaves (frames : nat) (t : table entity) (leaves : list entity)
    (hierarchy : gmap Z (list Z)) : result (gmap Z (list Z)) :=
  match leaves with
  | [] => Ok hierarchy
  | e :: leaves' =>
      (parents <- chain frames t e [] ;;
       hierarchy' <- record_chain (range_down (length parents - 1)) parents hierarchy ;;
       record_leaves frames t leaves' hierarchy')%res
  end.

Definition leaves (t : table entity) : list entity :=
  values (dict (items (filter_by_column "Class" "'port'" t) ++
                items (filter_by_column "Class" "'powerSupply'" t))).

Definition hierarchy_of (frames : nat) (t : table entity) : result (gmap Z (list Z)) :=
  (hierarchy <- record_leaves frames t (leaves t) ∅ ;;
   Ok (list_set <$> hierarchy))%res.

(** ** Strings of digits and literal patterns *)

Fixpoint all_digits (s : string) : bool :=
  match s with
  | EmptyString => true
  | String c s' => is_digit c && all_digits s'
  end.

(** The pattern matching the characters of [s] one by one. *)
Fixpoint literals (s : string) : list piece :=
  match s with
  | EmptyString => []
  | String c s' => One (Lit c) :: literals s'
  end.

(** [s] contains [sub]. *)
Definition contains (sub s : string) : Prop :=
  exists before after, s = before ++ sub ++ after.

(** ** The mapping as a function of the tables *)

(** The inner loop of [_descr_based_mapping] for the port of index [k]. *)
Definition match_interfaces (ifTable_re : string) (k : Z)
    (interfaces : list interface) (mapping : table Z) : table Z :=
  fold_left (fun mapping interface =>
               if re_search ifTable_re (ifDescr interface)
               then setitem mapping k (if_suffix interface)
               else mapping)
            interfaces mapping.

Fixpoint descr_ports (ports : list entity) (interfaces : list interface)
    (mapping : table Z) : result (table Z) :=
  match ports with
  | [] => Ok mapping
  | port :: ports' =>
      (tokens <- unpack2 (findall_digits (entPhysicalDescr port)) ;;
       descr_ports ports' interfaces
         (match_interfaces (".*" ++ fst tokens ++ "/" ++ snd tokens)
                           (suffix port) interfaces mapping))%res
  end.

Fixpoint alias_ports (aliases : table alias) (ports : list Z) (mapping : table Z)
    : result (table Z) :=
  match ports with
  | [] => Ok mapping
  | port :: ports' =>
      (row <- getitem aliases port ;;
       component <- last_item (split_dot (entAliasMappingIdentifier row)) ;;
       i <- py_int component ;;
       alias_ports aliases ports' (setitem mapping port i))%res
  end.

Definition ports_of (t : table entity) : table entity :=
  filter_by_column "Class" "'port'" t.

Definition mapping_of (aliases : table alias) (t : table entity)
    (interfaces : table interface) : result (table Z) :=
  match aliases with
  | _ :: _ => alias_ports aliases (keys (ports_of t)) []
  | [] => descr_ports (values (ports_of t)) (values interfaces) []
  end.

(** The interface satisfies the match expression built for the port. *)
Definition satisfies (port : entity) (i : interface) : bool :=
  match findall_digits (entPhysicalDescr port) with
  | [module_index; port_index] =>
      re_search (".*" ++ module_index ++ "/" ++ port_index) (ifDescr i)
  | _ => false
  end.

(** ** Sessions *)

(** What a caller can do with an AutoLoad object. *)
Inductive call :=
| Read_entPhysicalTable
| Read_ifTable
| Call_get_hierarchy
| Call_get_mapping
| Call__descr_based_mapping
| Call_get_parent (e : entity)
| Call_get_parents (e : entity).

(** The object after the call, whether it returned or raised. *)
Definition perform (frames : nat) (c : call) (self : AutoLoad) : AutoLoad :=
  match c with
  | Read_entPhysicalTable => snd (entPhysicalTable self)
  | Read_ifTable => snd (ifTable self)
  | Call_get_hierarchy => snd (get_hierarchy frames self)
  | Call_get_mapping => snd (get_mapping self)
  | Call__descr_based_mapping => snd (_descr_based_mapping self)
  | Call_get_parent e => snd (get_parent frames e self)
  | Call_get_parents e => snd (get_parents frames e [] self)
  end.

Definition session (frames : nat) (calls : list call) (self : AutoLoad) : AutoLoad :=
  fold_left (fun self c => perform frames c self) calls self.

Definition is_get_mapping (c : call) : bool :=
  match c with
  | Call_get_mapping => true
  | _ => false
  end.

(** How often the table [name] has been fetched from the device. *)
Definition fetches (name : string * string) (self : AutoLoad) : nat :=
  length (List.filter (fun n => bool_decide (n = name)) (walks (snmp self))).

Definition cached {A} (cache : option A) : nat :=
  match cache with
  | Some _ => 1
  | None => 0
  end.

(** The fetches of the two cached tables are those that filled the caches,
    and the alias table has been fetched [n] times. *)
Definition accounted (n : nat) (self : AutoLoad) : Prop :=
  fetches ("ENTITY-MIB", "entPhysicalTable") self = cached (_entPhysicalTable self)
  /\ fetches ("IF-MIB", "ifTable") self = cached (_ifTable self)
  /\ fetches ("ENTITY-MIB", "entAliasMappingTable") self = n.

(** ** Edges of a hierarchy and alias rows *)

(** [child] is among the children recorded under [parent_index]. *)
Definition has_edge (hierarchy : gmap Z (list Z)) (parent_index child : Z) : Prop :=
  exists children, hierarchy !! parent_index = Some children /\ child ∈ children.

(** The interface index an alias row gives: the last dotted component of
    its identifier, read as an integer (the right-hand side of the
    assignment in the alias loop of [get_mapping]). *)
Definition alias_index (row : alias) : result Z :=
  (component <- last_item (split_dot (entAliasMappingIdentifier row)) ;;
   py_int component)%res.

(** Some interface satisfies the match expression built for the port. *)
Definition has_interface (interfaces : list interface) (port : entity) : bool :=
  existsb (satisfies port) interfaces.

(** ** Objects that read the same tables *)

(** [self'] reads the tables [self] reads, and has kept what [self] had
    cached. *)
Definition same_tables (self self' : AutoLoad) : Prop :=
  the_table self' = the_table self
  /\ the_ifTable self' = the_ifTable self
  /\ device_entAliasMappingTable (snmp self') = device_entAliasMappingTable (snmp self)
  /\ (is_Some (_entPhysicalTable self) -> is_Some (_entPhysicalTable self'))
  /\ (is_Some (_ifTable self) -> is_Some (_ifTable self')).

(** ** Containment paths *)

(** [x] is [e] or a row above it: a row reached from [e] along the
    containment references. *)
Inductive above (t : table entity) (e : entity) : entity -> Prop :=
| above_self : above t e e
| above_step x p :
    above t e x -> table_get t (entPhysicalContainedIn x) = Some p -> above t e p.

Definition listed (e : entity) : bool :=
  bool_decide (is_Some (assoc autolad_parents (entPhysicalClass e))).

(** The rows from [e] up to the first chassis, [n] containment steps at
    most, have classes of the parent rule table (the chassis apart, whose
    class is not looked up). *)
Fixpoint listed_path (n : nat) (t : table entity) (e : entity) : bool :=
  if is_chassis e then true
  else listed e
       && match n with
          | O => true
          | S n' =>
              match table_get t (entPhysicalContainedIn e) with
              | Some parent => listed_path n' t parent
              | None => true
              end
          end.

(** [e] is a chassis, or leads to one in at most [n] steps over rows with
    classes of the parent rule table. *)
Fixpoint resolves (n : nat) (t : table entity) (e : entity) : bool :=
  if is_chassis e then true
  else match n with
       | O => false
       | S n' =>
           listed e
           && match table_get t (entPhysicalContainedIn e) with
              | Some parent => resolves n' t parent
              | None => false
              end
       end.

(** ** Example devices *)

Definition row (i : Z) (class : string) (contained_in : Z) (descr : string) : Z * entity :=
  (i, {| suffix := i; entPhysicalClass := class;
         entPhysicalContainedIn := contained_in; entPhysicalDescr := descr |}).

Definition if_row (i : Z) (descr : string) : Z * interface :=
  (i, {| if_suffix := i; ifDescr := descr |}).

Definition device (t : table entity) (ifs : table interface) (aliases : table alias)
    : QualiSnmp :=
  {| device_entPhysicalTable := t; device_ifTable := ifs;
     device_entAliasMappingTable := aliases; walks := [] |}.

(** A chassis holding a module holding a port. *)
Definition small_table : table entity :=
  [ row 1 "'chassis'" 0 "Chassis";
    row 2 "'module'" 1 "Module 1";
    row 3 "'port'" 2 "Port 1/2" ].

Definition small_port : entity := snd (row 3 "'port'" 2 "Port 1/2").
Definition small_chassis : entity := snd (row 1 "'chassis'" 0 "Chassis").

(** A port whose containment reference names no row. *)
Definition dangling_table : table entity :=
  [ row 1 "'chassis'" 0 "Chassis";
    row 5 "'port'" 99 "Port 1/1" ].

Definition dangling_port : entity := snd (row 5 "'port'" 99 "Port 1/1").

(** Two containers holding each other. *)
Definition cyclic_table : table entity :=
  [ row 7 "'container'" 8 "Slot A";
    row 8 "'container'" 7 "Slot B" ].



(** A port held by a row of a class the rule table does not list. *)
Definition other_table : table entity :=
  [ row 1 "'chassis'" 0 "Chassis";
    row 2 "'other'" 1 "Carrier";
    row 3 "'port'" 2 "Port 1/2" ].

Definition other_port : entity := snd (row 3 "'port'" 2 "Port 1/2").

(** Two ports, one of them without numbers in its description. *)
Definition unnumbered_snmp : QualiSnmp :=
  device [ row 1 "'chassis'" 0 "Chassis";
           row 3 "'port'" 1 "Port 1/2";
           row 4 "'port'" 1 "Uplink" ]
         [ if_row 10 "GigabitEthernet1/2" ]
         [].

(** The same device without the second port. *)
Definition numbered_snmp : QualiSnmp :=
  device [ row 1 "'chassis'" 0 "Chassis";
           row 3 "'port'" 1 "Port 1/2" ]
         [ if_row 10 "GigabitEthernet1/2" ]
         [].

(** Two interfaces whose descriptions end with the tokens of the port. *)
Definition two_match_snmp : QualiSnmp :=
  device [ row 1 "'chassis'" 0 "Chassis";
           row 3 "'port'" 1 "Port 1/2" ]
         [ if_row 10 "GigabitEthernet1/2"; if_row 20 "TenGigabitEthernet1/2" ]
         [].

(** An interface whose description goes on after the tokens of the port. *)
Definition longer_snmp : QualiSnmp :=
  device [ row 1 "'chassis'" 0 "Chassis";
           row 3 "'port'" 1 "Port 1/2" ]
         [ if_row 23 "Gi1/23" ]
         [].

(** Two ports, the alias table knowing the first only. *)
Definition half_aliased_snmp : QualiSnmp :=
  device [ row 1 "'chassis'" 0 "Chassis";
           row 3 "'port'" 1 "Port 1/1";
           row 4 "'port'" 1 "Port 1/2" ]
         [ if_row 48 "GigabitEthernet1/1" ]
         [ (3, {| entAliasMappingIdentifier := "1.3.6.1.2.1.2.2.1.1.48" |}) ].

(** A port in a slot of a module: containers between the levels. *)
Definition slotted_table : table entity :=
  [ row 1 "'chassis'" 0 "Chassis";
    row 2 "'container'" 1 "Slot 1";
    row 3 "'module'" 2 "Module 1";
    row 4 "'container'" 3 "Port slot 1";
    row 5 "'port'" 4 "Port 1/1";
    row 6 "'port'" 3 "Port 1/2";
    row 7 "'powerSupply'" 1 "PSU" ].

Definition slotted_port : entity := snd (row 5 "'port'" 4 "Port 1/1").
Definition direct_port : entity := snd (row 6 "'port'" 3 "Port 1/2").
Definition slotted_module : entity := snd (row 3 "'module'" 2 "Module 1").

(** Two ports with an alias row each. *)
Definition aliased_snmp : QualiSnmp :=
  device [ row 1 "'chassis'" 0 "Chassis";
           row 3 "'port'" 1 "Port 1/1";
           row 4 "'port'" 1 "Port 1/2" ]
         [ if_row 48 "GigabitEthernet1/1" ]
         [ (4, {| entAliasMappingIdentifier := "ifIndex.49" |});
           (3, {| entAliasMappingIdentifier := "1.3.6.1.2.1.2.2.1.1.48" |}) ].

(** Three ports; the second has no interface, the third has two. *)
Definition three_port_snmp : QualiSnmp :=
  device [ row 1 "'chassis'" 0 "Chassis";
           row 3 "'port'" 1 "Port 1/1";
           row 4 "'port'" 1 "Port 1/2";
           row 5 "'port'" 1 "Port 1/3" ]
         [ if_row 30 "Gi1/3"; if_row 10 "Gi1/1"; if_row 31 "Te1/3" ]
         [].

(** A sound topology with a fan beside the module: the fan is on the
    containment path of no port. *)
Definition fan_table : table entity :=
  [ row 1 "'chassis'" 0 "Chassis";
    row 2 "'module'" 1 "Module 1";
    row 3 "'port'" 2 "Port 1/2";
    row 9 "'fan'" 1 "Fan tray" ].

(** A chassis held, through a slot, by another chassis. *)
Definition stacked_table : table entity :=
  [ row 1 "'chassis'" 0 "Outer chassis";
    row 2 "'container'" 1 "Bay";
    row 3 "'chassis'" 2 "Inner chassis" ].

Definition outer_chassis : entity := snd (row 1 "'chassis'" 0 "Outer chassis").
Definition inner_chassis : entity := snd (row 3 "'chassis'" 2 "Inner chassis").

(** A port whose slot sits on another port of the module. *)
Definition piggyback_table : table entity :=
  [ row 1 "'chassis'" 0 "Chassis";
    row 2 "'module'" 1 "Module 1";
    row 6 "'port'" 2 "Port 1/1";
    row 4 "'container'" 6 "Transceiver cage";
    row 5 "'port'" 4 "Port 1/1/1" ].

Definition carried_port : entity := snd (row 5 "'port'" 4 "Port 1/1/1").
Definition carrier_port : entity := snd (row 6 "'port'" 2 "Port 1/1").
Definition carrier_module : entity := snd (row 2 "'module'" 1 "Module 1").

(** Two ports; the alias row of the first does not end in an integer, the
    second has no alias row. *)
Definition misaliased_snmp : QualiSnmp :=
  device [ row 1 "'chassis'" 0 "Chassis";
           row 3 "'port'" 1 "Port 1/1";
           row 4 "'port'" 1 "Port 1/2" ]
         []
         [ (3, {| entAliasMappingIdentifier := "ifIndex.abc" |}) ].

(** ** The specification's reading of malformed topologies *)


(** * Properties *)

Section Cache.
Variable self : AutoLoad.

Lemma entPhysicalTable_run :
  entPhysicalTable self = (Ok (the_table self), load self).
Proof.
  unfold load, the_table, entPhysicalTable.
  destruct (_entPhysicalTable self); reflexivity.
Qed.

Lemma load_cached : _entPhysicalTable (load self) = Some (the_table self).
Proof.
  unfold load, the_table, entPhysicalTable.
  destruct (_entPhysicalTable self) eqn:E; simpl; [exact E | reflexivity].
Qed.

Lemma the_table_load : the_table (load self) = the_table self.
Proof. unfold the_table at 1. rewrite load_cached. reflexivity. Qed.

Lemma ifTable_run : ifTable self = (Ok (the_ifTable self), load_if self).
Proof.
  unfold load_if, the_ifTable, ifTable.
  destruct (_ifTable self); reflexivity.
Qed.

Lemma load_if_cached : _ifTable (load_if self) = Some (the_ifTable self).
Proof.
  unfold load_if, the_ifTable, ifTable.
  destruct (_ifTable self) eqn:E; simpl; [exact E | reflexivity].
Qed.

Lemma load_if_table : the_table (load_if self) = the_table self.
Proof.
  unfold load_if, the_table, ifTable.
  destruct (_ifTable self); reflexivity.
Qed.

Lemma the_ifTable_load_if : the_ifTable (load_if self) = the_ifTable self.
Proof. unfold the_ifTable at 1. rewrite load_if_cached. reflexivity. Qed.
End Cache.

Lemma load_fixed self t : _entPhysicalTable self = Some t -> load self = self.
Proof. intros E. unfold load, entPhysicalTable. rewrite E. reflexivity. Qed.

Lemma load_load self : load (load self) = load self.
Proof. apply (load_fixed _ _ (load_cached self)). Qed.

Lemma load_if_fixed self t : _ifTable self = Some t -> load_if self = self.
Proof. intros E. unfold load_if, ifTable. rewrite E. reflexivity. Qed.

(** [get_parent] computes [climb] on the table the object reads, and leaves
    the object as it was or with the table cached. *)
Lemma get_parent_run frames : forall e self,
  exists self', get_parent frames e self = (climb frames (the_table self) e, self')
                /\ (self' = self \/ self' = load self).
Proof.
  induction frames as [|n IH]; intros e self.
  - exists self. split; [reflexivity | now left].
  - cbn [get_parent climb]. unfold bindM at 1. rewrite entPhysicalTable_run.
    unfold bindM, lift, bind.
    destruct (getitem (the_table self) (entPhysicalContainedIn e)) as [parent|x].
    2:{ exists (load self). split; [reflexivity | now right]. }
    destruct (autolad_parents_getitem (entPhysicalClass e)) as [valid|x].
    2:{ exists (load self). split; [reflexivity | now right]. }
    destruct (bool_decide (entPhysicalClass parent ∈ valid)).
    + exists (load self). split; [reflexivity | now right].
    + destruct (IH parent (load self)) as (s' & Hrun & Hs').
      exists s'. rewrite Hrun, the_table_load. split; [reflexivity|].
      right. destruct Hs' as [->| ->]; [reflexivity | apply load_load].
Qed.

Lemma get_parents_run frames : forall e parents self,
  exists self', get_parents frames e parents self
                  = (chain frames (the_table self) e parents, self')
                /\ (self' = self \/ self' = load self).
Proof.
  induction frames as [|n IH]; intros e parents self.
  - exists self. split; [reflexivity | now left].
  - cbn [get_parents chain].
    destruct (bool_decide (entPhysicalClass e = "'chassis'")).
    { exists self. split; [reflexivity | now left]. }
    unfold bindM at 1.
    destruct (get_parent_run n e self) as (s1 & Hrun & Hs1). rewrite Hrun.
    unfold bind at 1.
    destruct (climb n (the_table self) e) as [parent|x].
    2:{ exists s1. split; [reflexivity | exact Hs1]. }
    destruct (IH parent (parents ++ [e])%list s1) as (s2 & Hrun2 & Hs2).
    exists s2. rewrite Hrun2.
    assert (Ht : the_table s1 = the_table self).
    { destruct Hs1 as [->| ->]; [reflexivity | apply the_table_load]. }
    rewrite Ht. split; [reflexivity|].
    destruct Hs1 as [->| ->]; [exact Hs2|].
    right. destruct Hs2 as [->| ->]; [reflexivity | apply load_load].
Qed.

Lemma get_parent_fst frames e self :
  fst (get_parent frames e self) = climb frames (the_table self) e.
Proof. destruct (get_parent_run frames e self) as (s & -> & _). reflexivity. Qed.

Lemma get_parents_fst frames e parents self :
  fst (get_parents frames e parents self) = chain frames (the_table self) e parents.
Proof. destruct (get_parents_run frames e parents self) as (s & -> & _). reflexivity. Qed.

Lemma get_parents_loaded frames e parents self :
  load self = self ->
  get_parents frames e parents self = (chain frames (the_table self) e parents, self).
Proof.
  intros Hl. destruct (get_parents_run frames e parents self) as (s & -> & [->| ->]).
  - reflexivity.
  - now rewrite Hl.
Qed.

Lemma for_each_leaves_run frames self : load self = self ->
  forall ls hierarchy,
  for_each ls hierarchy
    (fun hierarchy entity =>
       (parents <- get_parents frames entity [] ;;
        lift (record_chain (range_down (length parents - 1)) parents hierarchy))%py) self
  = (record_leaves frames (the_table self) ls hierarchy, self).
Proof.
  intros Hl ls. induction ls as [|e ls IH]; intros hierarchy.
  - reflexivity.
  - cbn [for_each record_leaves]. unfold bindM at 1. unfold bindM at 1.
    rewrite (get_parents_loaded _ _ _ _ Hl). unfold bind at 1.
    destruct (chain frames (the_table self) e []) as [parents|x]; [|reflexivity].
    unfold lift, bind.
    destruct (record_chain _ parents hierarchy) as [h'|x]; [|reflexivity].
    apply IH.
Qed.

(** [get_hierarchy] computes [hierarchy_of] on the table the object reads
    and leaves that table cached. *)
Lemma get_hierarchy_run frames self :
  get_hierarchy frames self = (hierarchy_of frames (the_table self), load self).
Proof.
  unfold get_hierarchy, hierarchy_of.
  unfold bindM at 1. rewrite entPhysicalTable_run.
  unfold bindM at 1. rewrite entPhysicalTable_run, load_load, the_table_load.
  unfold bindM at 1.
  rewrite (for_each_leaves_run frames (load self) (load_load self)), the_table_load.
  fold (leaves (the_table self)). unfold bind.
  destruct (record_leaves frames (the_table self) (leaves (the_table self)) ∅);
    reflexivity.
Qed.


(** ** The rule table *)

Lemma autolad_parents_spec c l :
  assoc autolad_parents c = Some l ->
  (forall x, x ∈ l -> x = "'module'" \/ x = "'chassis'")
  /\ (c <> "'chassis'" -> "'chassis'" ∈ l).
Proof.
  unfold autolad_parents. cbn [assoc].
  repeat case_bool_decide; intros [= <-]; subst; split; intros;
    repeat match goal with
           | H : _ ∈ _ :: _ |- _ => apply elem_of_cons in H; destruct H
           | H : _ ∈ [] |- _ => apply elem_of_nil in H; destruct H
           end;
    rewrite ?elem_of_cons; auto; congruence.
Qed.

Lemma autolad_parents_chassis : assoc autolad_parents "'chassis'" = Some [].
Proof. reflexivity. Qed.

(** ** Tables *)

Lemma table_get_In {R} (t : table R) k r : table_get t k = Some r -> In (k, r) t.
Proof.
  induction t as [|[k' r'] t IH]; cbn [table_get]; [discriminate|].
  case_bool_decide as Hk.
  - intros [= ->]. subst. now left.
  - intros H. right. now apply IH.
Qed.

Lemma table_get_value {R} (t : table R) k r : table_get t k = Some r -> In r (values t).
Proof.
  intros H. apply table_get_In in H. unfold values.
  apply in_map_iff. now exists (k, r).
Qed.

Lemma reaches_chassis_S n t e :
  reaches_chassis n t e = true -> reaches_chassis (S n) t e = true.
Proof.
  revert e. induction n as [|n IH]; intros e; cbn [reaches_chassis].
  - destruct (is_chassis e); [reflexivity | discriminate].
  - destruct (is_chassis e); [reflexivity|].
    destruct (table_get t (entPhysicalContainedIn e)) as [parent|]; [|discriminate].
    intros H. apply IH in H. exact H.
Qed.

Lemma reaches_chassis_le n m t e :
  (n <= m)%nat -> reaches_chassis n t e = true -> reaches_chassis m t e = true.
Proof.
  induction 1 as [|m Hle IH]; [trivial|].
  intros H. apply reaches_chassis_S. now apply IH.
Qed.

Lemma reaches_chassis_step n t e parent :
  table_get t (entPhysicalContainedIn e) = Some parent ->
  reaches_chassis n t parent = true -> reaches_chassis (S n) t e = true.
Proof.
  intros Hg H. cbn [reaches_chassis]. rewrite Hg.
  destruct (is_chassis e); [reflexivity | exact H].
Qed.

(** ** Ancestor resolution on a table *)

Lemma climb_Ok frames t : forall e p,
  climb frames t e = Ok p ->
  parent_row t p /\ forall n, reaches_chassis n t p = true ->
                              reaches_chassis (frames + n) t e = true.
Proof.
  induction frames as [|f IH]; intros e p; cbn [climb]; [discriminate|].
  unfold getitem, autolad_parents_getitem, bind.
  destruct (table_get t (entPhysicalContainedIn e)) as [parent|] eqn:Hg; [|discriminate].
  destruct (assoc autolad_parents (entPhysicalClass e)) as [valid|] eqn:Hr; [|discriminate].
  case_bool_decide as Hin.
  - intros [= ->]. split.
    + split; [eauto|]. now apply (autolad_parents_spec _ _ Hr).
    + intros n Hn. apply (reaches_chassis_step (f + n) _ _ _ Hg).
      apply (reaches_chassis_le n); [lia | exact Hn].
  - intros H. destruct (IH _ _ H) as [Hrow Hreach]. split; [exact Hrow|].
    intros n Hn. apply (reaches_chassis_step (f + n) _ _ _ Hg). now apply Hreach.
Qed.

(** The shape of a returned chain: the entity, then rows returned by
    [get_parent], the last element being a chassis. *)
Lemma chain_Ok frames t : forall e parents c,
  chain frames t e parents = Ok c ->
  exists rest, c = (parents ++ e :: rest)%list
    /\ Forall (parent_row t) rest
    /\ (exists x, last (e :: rest) = Some x /\ entPhysicalClass x = "'chassis'")
    /\ (entPhysicalClass e <> "'chassis'" -> rest <> [])
    /\ exists n, reaches_chassis n t e = true.
Proof.
  induction frames as [|f IH]; intros e parents c; cbn [chain]; [discriminate|].
  case_bool_decide as Hc.
  - intros [= <-]. exists []. repeat split; [constructor | eauto | congruence |].
    exists 0%nat. cbn. unfold is_chassis. now rewrite bool_decide_eq_true_2.
  - unfold bind. destruct (climb f t e) as [parent|] eqn:Hp; [|discriminate].
    intros H. destruct (IH _ _ _ H) as (rest & -> & Hrows & (x & Hlast & Hx) & _ & n & Hn).
    destruct (climb_Ok _ _ _ _ Hp) as [Hrow Hreach].
    exists (parent :: rest). rewrite <- app_assoc. repeat split.
    + now constructor.
    + exists x. split; [|exact Hx]. now rewrite last_cons_cons.
    + discriminate.
    + exists (f + n)%nat. now apply Hreach.
Qed.

Lemma climb_returns t : known_classes t = true ->
  forall n e, reaches_chassis n t e = true -> is_chassis e = false ->
  is_Some (assoc autolad_parents (entPhysicalClass e)) ->
  forall frames, (n <= frames)%nat ->
  exists p, climb frames t e = Ok p
            /\ reaches_chassis (n - 1) t p = true /\ In p (values t).
Proof.
  intros Hknown. induction n as [|n IH]; intros e Hreach Hc [valid Hr] frames Hle.
  - cbn in Hreach. rewrite Hc in Hreach. discriminate.
  - cbn [reaches_chassis] in Hreach. rewrite Hc in Hreach.
    destruct (table_get t (entPhysicalContainedIn e)) as [parent|] eqn:Hg; [|discriminate].
    destruct frames as [|f]; [lia|]. cbn [climb].
    unfold getitem, autolad_parents_getitem, bind. rewrite Hg, Hr.
    assert (Hin : In parent (values t)) by (eapply table_get_value; eauto).
    case_bool_decide as Hv.
    + exists parent. replace (S n - 1)%nat with n by lia. auto.
    + assert (Hpc : is_chassis parent = false).
      { unfold is_chassis. apply bool_decide_eq_false_2. intros Heq. apply Hv.
        rewrite Heq. apply (autolad_parents_spec _ _ Hr).
        unfold is_chassis in Hc. now apply bool_decide_eq_false_1 in Hc. }
      assert (Hpk : is_Some (assoc autolad_parents (entPhysicalClass parent))).
      { unfold known_classes in Hknown. rewrite forallb_forall in Hknown.
        apply Hknown in Hin. now apply bool_decide_eq_true_1 in Hin. }
      destruct (IH parent Hreach Hpc Hpk f ltac:(lia)) as (p & Hp & Hpr & Hpin).
      exists p. repeat split; [exact Hp | | exact Hpin].
      apply (reaches_chassis_le (n - 1)); [lia | exact Hpr].
Qed.

Lemma chain_returns t : known_classes t = true ->
  forall n e parents, reaches_chassis n t e = true -> In e (values t) ->
  forall frames, (n + 1 <= frames)%nat ->
  exists c, chain frames t e parents = Ok c.
Proof.
  intros Hknown. induction n as [n IH] using lt_wf_ind.
  intros e parents Hreach Hin frames Hle.
  destruct frames as [|f]; [lia|]. cbn [chain].
  case_bool_decide as Hc; [eauto|].
  assert (Hc' : is_chassis e = false) by now apply bool_decide_eq_false_2.
  assert (Hk : is_Some (assoc autolad_parents (entPhysicalClass e))).
  { unfold known_classes in Hknown. rewrite forallb_forall in Hknown.
    apply Hknown in Hin. now apply bool_decide_eq_true_1 in Hin. }
  destruct n as [|n].
  { cbn in Hreach. rewrite Hc' in Hreach. discriminate. }
  destruct (climb_returns t Hknown (S n) e Hreach Hc' Hk f ltac:(lia))
    as (p & Hp & Hpr & Hpin).
  unfold bind. rewrite Hp.
  replace (S n - 1)%nat with n in Hpr by lia.
  apply (IH n ltac:(lia) p _ Hpr Hpin). lia.
Qed.

(** ** Claims on ancestor resolution *)

Lemma resolves_S n t e : resolves n t e = true -> resolves (S n) t e = true.
Proof.
  revert e. induction n as [|n IH]; intros e; cbn [resolves].
  - destruct (is_chassis e); [reflexivity | discriminate].
  - destruct (is_chassis e); [reflexivity|].
    destruct (listed e); [|discriminate]. cbn [andb].
    destruct (table_get t (entPhysicalContainedIn e)) as [parent|]; [|discriminate].
    intros H. apply IH in H. exact H.
Qed.

Lemma resolves_le n m t e :
  (n <= m)%nat -> resolves n t e = true -> resolves m t e = true.
Proof.
  induction 1 as [|m Hle IH]; [trivial|].
  intros H. apply resolves_S. now apply IH.
Qed.

Lemma resolves_of n t : forall e,
  reaches_chassis n t e = true -> listed_path n t e = true -> resolves n t e = true.
Proof.
  induction n as [|n IH]; intros e; cbn [reaches_chassis listed_path resolves].
  - destruct (is_chassis e); [reflexivity | discriminate].
  - destruct (is_chassis e); [reflexivity|].
    destruct (table_get t (entPhysicalContainedIn e)) as [parent|]; [|discriminate].
    intros Hreach Hlisted. apply andb_true_iff in Hlisted as [-> Hlisted].
    now apply IH.
Qed.

Lemma resolves_listed m t : forall e n,
  resolves m t e = true -> listed_path n t e = true.
Proof.
  induction m as [|m IH]; intros e n; cbn [resolves].
  - destruct n; cbn [listed_path]; destruct (is_chassis e); (reflexivity || discriminate).
  - destruct n as [|n]; cbn [listed_path]; destruct (is_chassis e); try reflexivity;
      intros H; apply andb_true_iff in H as [-> H]; [reflexivity|].
    destruct (table_get t (entPhysicalContainedIn e)) as [parent|]; [|discriminate].
    now apply IH.
Qed.

Lemma listed_lookup e :
  listed e = true -> exists valid, assoc autolad_parents (entPhysicalClass e) = Some valid.
Proof. unfold listed. intros H. now apply bool_decide_eq_true_1 in H. Qed.

Lemma climb_resolves t : forall n e,
  resolves n t e = true -> is_chassis e = false ->
  forall frames, (n <= frames)%nat ->
  exists p, climb frames t e = Ok p /\ resolves (n - 1) t p = true.
Proof.
  induction n as [|n IH]; intros e Hres Hc frames Hle; cbn [resolves] in Hres;
    rewrite Hc in Hres; [discriminate|].
  apply andb_true_iff in Hres as [Hl Hres].
  destruct (listed_lookup _ Hl) as [valid Hr].
  destruct (table_get t (entPhysicalContainedIn e)) as [parent|] eqn:Hg; [|discriminate].
  destruct frames as [|f]; [lia|]. cbn [climb].
  unfold getitem, autolad_parents_getitem, bind. rewrite Hg, Hr.
  replace (S n - 1)%nat with n by lia.
  case_bool_decide as Hv; [eauto|].
  assert (Hpc : is_chassis parent = false).
  { unfold is_chassis. apply bool_decide_eq_false_2. intros Heq. apply Hv.
    rewrite Heq. apply (autolad_parents_spec _ _ Hr).
    unfold is_chassis in Hc. now apply bool_decide_eq_false_1 in Hc. }
  destruct (IH parent Hres Hpc f ltac:(lia)) as (p & Hp & Hpr).
  exists p. split; [exact Hp|]. apply (resolves_le (n - 1)); [lia | exact Hpr].
Qed.

Lemma chain_resolves t : forall n e parents,
  resolves n t e = true ->
  forall frames, (n + 1 <= frames)%nat ->
  exists c, chain frames t e parents = Ok c.
Proof.
  induction n as [n IH] using lt_wf_ind. intros e parents Hres frames Hle.
  destruct frames as [|f]; [lia|]. cbn [chain].
  case_bool_decide as Hc; [eauto|].
  assert (Hc' : is_chassis e = false) by now apply bool_decide_eq_false_2.
  destruct n as [|n].
  { cbn in Hres. rewrite Hc' in Hres. discriminate. }
  destruct (climb_resolves t (S n) e Hres Hc' f ltac:(lia)) as (p & Hp & Hpr).
  unfold bind. rewrite Hp. replace (S n - 1)%nat with n in Hpr by lia.
  apply (IH n ltac:(lia) p _ Hpr). lia.
Qed.

Lemma climb_resolved frames t : forall e p,
  climb frames t e = Ok p ->
  forall m, resolves m t p = true -> resolves (frames + m) t e = true.
Proof.
  induction frames as [|f IH]; intros e p; cbn [climb]; [discriminate|].
  unfold getitem, autolad_parents_getitem, bind.
  destruct (table_get t (entPhysicalContainedIn e)) as [parent|] eqn:Hg; [|discriminate].
  destruct (assoc autolad_parents (entPhysicalClass e)) as [valid|] eqn:Hr; [|discriminate].
  assert (Hl : listed e = true).
  { unfold listed. apply bool_decide_eq_true_2. rewrite Hr. eauto. }
  intros H m Hm. change (S f + m)%nat with (S (f + m)). cbn [resolves].
  rewrite Hl, Hg. destruct (is_chassis e); [reflexivity|]. cbn [andb].
  case_bool_decide as Hin.
  - injection H as ->. apply (resolves_le m); [lia | exact Hm].
  - now apply (IH _ _ H).
Qed.

Lemma chain_resolved frames t : forall e parents c,
  chain frames t e parents = Ok c -> exists m, resolves m t e = true.
Proof.
  induction frames as [|f IH]; intros e parents c; cbn [chain]; [discriminate|].
  case_bool_decide as Hc.
  - intros _. exists 0%nat. cbn. unfold is_chassis. now rewrite bool_decide_eq_true_2.
  - unfold bind. destruct (climb f t e) as [parent|] eqn:Hp; [|discriminate].
    intros H. destruct (IH _ _ _ H) as [m Hm].
    exists (f + m)%nat. now apply (climb_resolved _ _ _ _ Hp).
Qed.

(** C7 (as amended): for a port or power supply [e] of a well-formed table,
    get_parents returns a chain when the rows on the containment path of
    [e], from [e] up to the chassis, have classes of the parent rule table
    (and there is stack for the longest path), and only then; the chain it
    returns has [e] at position 0, a chassis at the last position and at
    least two elements.  Rows off the path may have any class. *)
Theorem get_parents_leaf_chain (self : AutoLoad) (k : Z) (e : entity) :
  well_formed (the_table self) = true ->
  table_get (the_table self) k = Some e ->
  entPhysicalClass e = "'port'" \/ entPhysicalClass e = "'powerSupply'" ->
  (listed_path (length (the_table self)) (the_table self) e = true ->
   forall frames, (length (the_table self) + 1 <= frames)%nat ->
   exists c, fst (get_parents frames e [] self) = Ok c)
  /\ (forall frames c, fst (get_parents frames e [] self) = Ok c ->
        listed_path (length (the_table self)) (the_table self) e = true
        /\ c !! 0%nat = Some e
        /\ (exists x, last c = Some x /\ entPhysicalClass x = "'chassis'")
        /\ (2 <= length c)%nat).
Proof.
  intros Hwf Hget Hclass. split.
  - intros Hlisted frames Hframes. rewrite get_parents_fst.
    assert (Hin : In e (values (the_table self))) by (eapply table_get_value; eauto).
    assert (Hreach : reaches_chassis (length (the_table self)) (the_table self) e = true).
    { unfold well_formed in Hwf. rewrite forallb_forall in Hwf. now apply Hwf. }
    apply (chain_resolves _ (length (the_table self))); [|exact Hframes].
    now apply resolves_of.
  - intros frames c. rewrite get_parents_fst. intros Hc.
    destruct (chain_resolved _ _ _ _ _ Hc) as [m Hm].
    split; [now apply (resolves_listed m)|].
    destruct (chain_Ok _ _ _ _ _ Hc) as (rest & -> & _ & Hlast & Hne & _).
    cbn [app]. split; [reflexivity|]. split; [exact Hlast|].
    destruct rest as [|p rest]; [|cbn; lia].
    exfalso. apply Hne; [|reflexivity]. destruct Hclass as [->| ->]; discriminate.
Qed.

Lemma get_parents_leaf_chain_witness :
  known_classes fan_table = false
  /\ exists c, fst (get_parents 5 small_port [] (init (device fan_table [] []))) = Ok c
       /\ c !! 0%nat = Some small_port
       /\ (exists x, last c = Some x /\ entPhysicalClass x = "'chassis'")
       /\ (2 <= length c)%nat.
Proof.
  split; [reflexivity|].
  destruct (get_parents_leaf_chain (init (device fan_table [] [])) 3 small_port)
    as [Hreturns Hshape].
  - reflexivity.
  - reflexivity.
  - left. reflexivity.
  - destruct (Hreturns ltac:(reflexivity) 5%nat ltac:(simpl; lia)) as [c Hc].
    exists c. split; [exact Hc|]. apply (Hshape 5%nat c Hc).
Defined.

(** C7 (as stated) fails: the table is acyclic and chassis-rooted, yet
    get_parents returns no chain for its port, whatever the stack; with
    three frames or more it raises the KeyError of the rule dictionary. *)
Lemma get_parents_unlisted_class :
  well_formed other_table = true
  /\ table_get other_table 3 = Some other_port
  /\ entPhysicalClass other_port = "'port'"
  /\ (forall frames c,
        fst (get_parents frames other_port [] (init (device other_table [] []))) <> Ok c)
  /\ (forall frames,
        fst (get_parents (3 + frames) other_port [] (init (device other_table [] [])))
        = Raise (KeyError (StrKey "'other'"))).
Proof.
  split; [reflexivity|]. split; [reflexivity|]. split; [reflexivity|]. split.
  - intros frames c. rewrite get_parents_fst.
    destruct frames as [|[|[|f]]]; vm_compute; discriminate.
  - intros frames. rewrite get_parents_fst. reflexivity.
Qed.

(** C9 (as amended): on a chassis get_parents returns the chain collected so
    far with the chassis appended, the one-element chain at a public call,
    and leaves the object untouched: neither the table nor the containment
    reference of the chassis is read.  The rule table lists no parent class
    for a chassis, so get_parent never accepts the row a chassis is
    contained in: it raises the KeyError of the subscript when that
    reference names no row, and goes on from the row otherwise. *)
Theorem get_parents_chassis (self : AutoLoad) (e : entity) (frames : nat)
    (parents : list entity) :
  entPhysicalClass e = "'chassis'" ->
  get_parents (S frames) e parents self = (Ok (parents ++ [e])%list, self)
  /\ get_parents (S frames) e [] self = (Ok [e], self)
  /\ assoc autolad_parents (entPhysicalClass e) = Some []
  /\ fst (get_parent (S frames) e self)
     = match table_get (the_table self) (entPhysicalContainedIn e) with
       | Some container => climb frames (the_table self) container
       | None => Raise (KeyError (IntKey (entPhysicalContainedIn e)))
       end.
Proof.
  intros Hc. split; [|split; [|split]].
  - cbn [get_parents]. now rewrite bool_decide_eq_true_2.
  - cbn [get_parents]. now rewrite bool_decide_eq_true_2.
  - now rewrite Hc.
  - rewrite get_parent_fst. cbn [climb]. unfold getitem, autolad_parents_getitem, bind.
    destruct (table_get _ _); [|reflexivity]. now rewrite Hc.
Qed.

Lemma get_parents_chassis_witness :
  get_parents 1 small_chassis [] (init (device small_table [] []))
  = (Ok [small_chassis], init (device small_table [] [])).
Proof.
  apply (get_parents_chassis (init (device small_table [] [])) small_chassis 0 []).
  reflexivity.
Defined.

(** C9 (as stated) fails in its last clause: get_parent on a chassis does
    end.  On the chassis of [small_table], whose containment reference 0
    names no row, it raises KeyError at once, whatever the stack; on a
    chassis held in a bay of another chassis it returns that chassis. *)
Lemma get_parent_on_chassis_ends :
  entPhysicalClass small_chassis = "'chassis'"
  /\ (forall frames,
        fst (get_parent (S frames) small_chassis (init (device small_table [] [])))
        = Raise (KeyError (IntKey 0)))
  /\ entPhysicalClass inner_chassis = "'chassis'"
  /\ (forall frames,
        fst (get_parent (S (S frames)) inner_chassis (init (device stacked_table [] [])))
        = Ok outer_chassis).
Proof.
  split; [reflexivity|]. split; [|split; [reflexivity|]].
  - intros frames. rewrite get_parent_fst. reflexivity.
  - intros frames. rewrite get_parent_fst. reflexivity.
Qed.








(** ** The hierarchy *)

Lemma range_down_spec hi p : In p (range_down hi) <-> (1 <= p <= hi)%nat.
Proof. unfold range_down. rewrite <- in_rev, in_seq. lia. Qed.

Lemma record_edge_dom hierarchy parent_index child :
  dom (record_edge hierarchy parent_index child) = {[parent_index]} ∪ dom hierarchy.
Proof. unfold record_edge. apply dom_insert_L. Qed.

Lemma record_chain_dom parents : forall ps hierarchy hierarchy',
  record_chain ps parents hierarchy = Ok hierarchy' ->
  forall k, k ∈ dom hierarchy' ->
  k ∈ dom hierarchy
  \/ exists p x, In p ps /\ parents !! p = Some x /\ suffix x = k.
Proof.
  induction ps as [|p ps IH]; intros hierarchy hierarchy'; cbn [record_chain].
  - intros [= <-] k Hk. now left.
  - unfold index, bind.
    destruct (parents !! p) as [parent|] eqn:Hp; [|discriminate].
    destruct (parents !! (p - 1)%nat) as [child|]; [|discriminate].
    intros H k Hk. destruct (IH _ _ H k Hk) as [Hdom|(p' & x & Hin & Hx & Hs)].
    + rewrite record_edge_dom in Hdom. apply elem_of_union in Hdom as [Hdom|Hdom].
      * apply elem_of_singleton in Hdom. right. exists p, parent.
        split; [now left | auto].
      * now left.
    + right. exists p', x. split; [now right | auto].
Qed.

Lemma record_chain_returns parents : forall ps hierarchy,
  (forall p, In p ps -> (1 <= p < length parents)%nat) ->
  exists hierarchy', record_chain ps parents hierarchy = Ok hierarchy'.
Proof.
  induction ps as [|p ps IH]; intros hierarchy Hps; cbn [record_chain]; [eauto|].
  assert (Hp : (1 <= p < length parents)%nat) by (apply Hps; now left).
  unfold index, bind.
  destruct (lookup_lt_is_Some_2 parents p ltac:(lia)) as [parent ->].
  destruct (lookup_lt_is_Some_2 parents (p - 1) ltac:(lia)) as [child ->].
  apply IH. intros p' Hp'. apply Hps. now right.
Qed.

(** Every key recorded for the leaves is the index of a row returned by
    [get_parent]. *)
Lemma record_leaves_dom frames t : forall ls hierarchy hierarchy',
  record_leaves frames t ls hierarchy = Ok hierarchy' ->
  forall k, k ∈ dom hierarchy' ->
  k ∈ dom hierarchy \/ exists x, parent_row t x /\ suffix x = k.
Proof.
  induction ls as [|e ls IH]; intros hierarchy hierarchy'; cbn [record_leaves].
  - intros [= <-] k Hk. now left.
  - unfold bind. destruct (chain frames t e []) as [parents|] eqn:Hc; [|discriminate].
    destruct (record_chain _ parents hierarchy) as [h1|] eqn:Hrec; [|discriminate].
    intros H k Hk. destruct (IH _ _ H k Hk) as [Hdom|Hrow]; [|now right].
    destruct (record_chain_dom _ _ _ _ Hrec k Hdom) as [Hdom'|(p & x & Hin & Hx & Hs)];
      [now left|].
    right. exists x. split; [|exact Hs].
    destruct (chain_Ok _ _ _ _ _ Hc) as (rest & -> & Hrows & _).
    apply range_down_spec in Hin. cbn [app] in Hx.
    destruct p as [|p]; [lia|]. cbn in Hx.
    rewrite Forall_forall in Hrows. apply Hrows.
    eapply list_elem_of_lookup_2. exact Hx.
Qed.

Lemma setitem_values {R} (d : table R) k v r :
  In r (values (setitem d k v)) -> r = v \/ In r (values d).
Proof.
  induction d as [|[k' r'] d IH]; cbn [setitem values map snd].
  - intros [<-|[]]. now left.
  - case_bool_decide; cbn [map snd].
    + intros [<-|Hin]; [now left | right; now right].
    + intros [<-|Hin]; [right; now left|].
      destruct (IH Hin) as [->|Hin']; [now left | right; now right].
Qed.

Lemma dict_values {R} (pairs : list (Z * R)) r :
  In r (values (dict pairs)) -> In r (map snd pairs).
Proof.
  unfold dict.
  assert (H : forall d, In r (values (fold_left (fun d kv => setitem d (fst kv) (snd kv)) pairs d))
                        -> In r (values d) \/ In r (map snd pairs)).
  { induction pairs as [|[k v] pairs IH]; intros d; cbn [fold_left map]; [now left|].
    intros Hin. destruct (IH _ Hin) as [Hd|Hp]; [|right; now right].
    destruct (setitem_values _ _ _ _ Hd) as [->|Hd']; [right; now left | now left]. }
  intros Hin. destruct (H [] Hin) as [[]|Hp]. exact Hp.
Qed.

Lemma leaves_rows t e : In e (leaves t) -> In e (values t).
Proof.
  unfold leaves, items, filter_by_column. intros H. apply dict_values in H.
  rewrite map_app, in_app_iff in H. unfold values.
  destruct H as [H|H]; apply in_map_iff in H as (kv & <- & Hkv);
    apply filter_In in Hkv as [Hkv _]; apply in_map; exact Hkv.
Qed.

Lemma record_leaves_returns t frames :
  well_formed t = true -> known_classes t = true ->
  (length t + 1 <= frames)%nat ->
  forall ls hierarchy, (forall e, In e ls -> In e (values t)) ->
  exists hierarchy', record_leaves frames t ls hierarchy = Ok hierarchy'.
Proof.
  intros Hwf Hknown Hframes. induction ls as [|e ls IH]; intros hierarchy Hls;
    cbn [record_leaves]; [eauto|].
  assert (Hin : In e (values t)) by (apply Hls; now left).
  assert (Hreach : reaches_chassis (length t) t e = true).
  { unfold well_formed in Hwf. rewrite forallb_forall in Hwf. now apply Hwf. }
  destruct (chain_returns _ Hknown _ e [] Hreach Hin frames Hframes) as [c Hc].
  unfold bind. rewrite Hc.
  destruct (record_chain_returns c (range_down (length c - 1)) hierarchy) as [h1 ->].
  { intros p Hp. apply range_down_spec in Hp. lia. }
  apply IH. intros e' He'. apply Hls. now right.
Qed.

Lemma index_consistent_get t k e :
  index_consistent t = true -> table_get t k = Some e -> suffix e = k.
Proof.
  intros Hidx Hget. apply table_get_In in Hget.
  unfold index_consistent in Hidx. rewrite forallb_forall in Hidx.
  apply Hidx in Hget. now apply bool_decide_eq_true_1 in Hget.
Qed.

(** C10: in a table whose rows are stored under their own index, every key
    of the map get_hierarchy returns is the index of a row of class module
    or chassis, so no key is the index of a port or of a power supply; and
    a well-formed table over the classes of the rule table does get its
    map, given the stack for the longest chain. *)
Theorem get_hierarchy_keys (self : AutoLoad) (frames : nat) :
  index_consistent (the_table self) = true ->
  (forall hierarchy, fst (get_hierarchy frames self) = Ok hierarchy ->
   forall k, k ∈ dom hierarchy ->
   exists p, table_get (the_table self) k = Some p
     /\ (entPhysicalClass p = "'module'" \/ entPhysicalClass p = "'chassis'")
     /\ entPhysicalClass p <> "'port'" /\ entPhysicalClass p <> "'powerSupply'")
  /\ (well_formed (the_table self) = true -> known_classes (the_table self) = true ->
      (length (the_table self) + 1 <= frames)%nat ->
      exists hierarchy, fst (get_hierarchy frames self) = Ok hierarchy).
Proof.
  intros Hidx. rewrite get_hierarchy_run. cbn [fst]. unfold hierarchy_of, bind. split.
  - intros hierarchy H k Hk.
    destruct (record_leaves _ _ _ _) as [h|] eqn:Hrec; [|discriminate].
    injection H as <-. rewrite dom_fmap_L in Hk.
    destruct (record_leaves_dom _ _ _ _ _ Hrec k Hk) as [Hempty|(x & [[j Hj] Hclass] & Hs)].
    { rewrite dom_empty_L in Hempty. now apply not_elem_of_empty in Hempty. }
    exists x. rewrite <- Hs, (index_consistent_get _ _ _ Hidx Hj).
    split; [exact Hj|]. split; [exact Hclass|].
    destruct Hclass as [->| ->]; split; discriminate.
  - intros Hwf Hknown Hframes.
    destruct (record_leaves_returns _ _ Hwf Hknown Hframes (leaves (the_table self)) ∅
                (leaves_rows _)) as [h ->].
    eauto.
Qed.

Lemma get_hierarchy_keys_witness :
  exists hierarchy,
    fst (get_hierarchy 4 (init (device small_table [] []))) = Ok hierarchy
    /\ forall k, k ∈ dom hierarchy ->
       exists p, table_get small_table k = Some p
         /\ (entPhysicalClass p = "'module'" \/ entPhysicalClass p = "'chassis'")
         /\ entPhysicalClass p <> "'port'" /\ entPhysicalClass p <> "'powerSupply'".
Proof.
  destruct (get_hierarchy_keys (init (device small_table [] [])) 4) as [Hkeys Hreturns].
  { reflexivity. }
  destruct Hreturns as [hierarchy Hh].
  { reflexivity. }
  { reflexivity. }
  { simpl. lia. }
  exists hierarchy. split; [exact Hh|]. exact (Hkeys hierarchy Hh).
Defined.

(** The example of the specification: {1: {2}, 2: {3}}. *)
Example get_hierarchy_small :
  fst (get_hierarchy 4 (init (device small_table [] [])))
  = Ok (list_to_map [(1, [2]); (2, [3])]).
Proof. vm_compute. reflexivity. Qed.

(** ** Regular expressions *)

Lemma append_cons c s1 s2 : String c s1 ++ s2 = String c (s1 ++ s2).
Proof. reflexivity. Qed.

Lemma append_nil_l s : "" ++ s = s.
Proof. reflexivity. Qed.

Lemma append_nil_r s : s ++ "" = s.
Proof. induction s as [|c s IH]; [reflexivity|]. now rewrite append_cons, IH. Qed.

Lemma append_assoc s1 s2 s3 : (s1 ++ s2) ++ s3 = s1 ++ s2 ++ s3.
Proof. induction s1 as [|c s1 IH]; [reflexivity|]. now rewrite !append_cons, IH. Qed.

Lemma is_digit_plain c : is_digit c = true -> c <> "*"%char /\ c <> "."%char.
Proof. intros H. split; intros ->; discriminate H. Qed.

Lemma all_digits_app s1 s2 :
  all_digits (s1 ++ s2) = all_digits s1 && all_digits s2.
Proof.
  induction s1 as [|c s1 IH]; [reflexivity|].
  rewrite append_cons. cbn [all_digits]. now rewrite IH, andb_assoc.
Qed.

Lemma findall_digits_from_digits s : forall run,
  all_digits run = true ->
  Forall (fun token => all_digits token = true) (findall_digits_from run s).
Proof.
  induction s as [|c s IH]; intros run Hrun; cbn [findall_digits_from].
  - case_bool_decide; [constructor | now repeat constructor].
  - destruct (is_digit c) eqn:Hc.
    + apply IH. rewrite all_digits_app, Hrun. cbn. now rewrite Hc.
    + case_bool_decide; [now apply IH|]. constructor; [exact Hrun | now apply IH].
Qed.

Lemma findall_digits_digits s :
  Forall (fun token => all_digits token = true) (findall_digits s).
Proof. now apply findall_digits_from_digits. Qed.

Lemma literals_app s1 s2 : literals (s1 ++ s2) = (literals s1 ++ literals s2)%list.
Proof.
  induction s1 as [|c s1 IH]; [reflexivity|].
  rewrite append_cons. cbn [literals app]. now rewrite IH.
Qed.

Lemma compile_cons c rest :
  compile (String c rest)
  = if is_star rest then Star (atom_of c) :: compile (match rest with
                                                      | String _ rest' => rest'
                                                      | EmptyString => ""
                                                      end)
    else One (atom_of c) :: compile rest.
Proof. destruct rest as [|c' rest']; reflexivity. Qed.

Lemma is_star_digits s rest :
  all_digits s = true -> is_star rest = false -> is_star (s ++ rest) = false.
Proof.
  destruct s as [|c s]; [trivial|]. cbn [all_digits]. rewrite append_cons.
  intros Hd _. apply andb_true_iff in Hd as [Hc _]. cbn [is_star].
  apply bool_decide_eq_false_2. now apply is_digit_plain.
Qed.

Lemma compile_digits s : forall rest,
  all_digits s = true -> is_star rest = false ->
  compile (s ++ rest) = (literals s ++ compile rest)%list.
Proof.
  induction s as [|c s IH]; intros rest Hd Hrest; [reflexivity|].
  cbn [all_digits] in Hd. apply andb_true_iff in Hd as [Hc Hd].
  rewrite append_cons, compile_cons, (is_star_digits _ _ Hd Hrest).
  cbn [literals app]. rewrite (IH _ Hd Hrest). unfold atom_of.
  rewrite bool_decide_eq_false_2 by now apply is_digit_plain. reflexivity.
Qed.

(** The pattern [_descr_based_mapping] builds from two runs of digits. *)
Lemma compile_ifTable_re m p :
  all_digits m = true -> all_digits p = true ->
  compile (".*" ++ m ++ "/" ++ p) = Star AnyChar :: literals (m ++ "/" ++ p).
Proof.
  intros Hm Hp.
  change (".*" ++ m ++ "/" ++ p) with (String "." (String "*" (m ++ String "/" p))).
  rewrite compile_cons. cbn [is_star]. rewrite bool_decide_eq_true_2 by reflexivity.
  f_equal. rewrite (compile_digits m _ Hm) by reflexivity.
  rewrite literals_app. f_equal.
  rewrite compile_cons.
  rewrite <- (append_nil_r p) at 1. rewrite (is_star_digits p "" Hp) by reflexivity.
  rewrite <- (append_nil_r p) at 1. rewrite (compile_digits p "" Hp) by reflexivity.
  cbn [compile]. now rewrite app_nil_r.
Qed.

Lemma match_here_literals l : forall s,
  match_here (literals l) s = true <-> exists after, s = l ++ after.
Proof.
  induction l as [|c l IH]; intros s; cbn [literals match_here].
  - split; [intros _; now exists s | trivial].
  - destruct s as [|c' s].
    + split; [discriminate | intros [after H]; discriminate H].
    + cbn [atom_matches]. rewrite andb_true_iff, IH, bool_decide_eq_true. split.
      * intros [-> [after ->]]. now exists after.
      * intros [after H]. rewrite append_cons in H. injection H as -> ->. eauto.
Qed.

Lemma match_here_star a pat s :
  match_here (Star a :: pat) s
  = match_here pat s
    || match s with
       | String c s' => atom_matches a c && match_here (Star a :: pat) s'
       | EmptyString => false
       end.
Proof. destruct s; reflexivity. Qed.

Lemma match_here_star_inv a pat : forall s,
  match_here (Star a :: pat) s = true ->
  exists skipped rest, s = skipped ++ rest /\ match_here pat rest = true.
Proof.
  induction s as [|c s IH]; rewrite match_here_star; intros H;
    apply orb_true_iff in H as [H|H].
  - now exists "", "".
  - discriminate.
  - now exists "", (String c s).
  - apply andb_true_iff in H as [_ H]. destruct (IH H) as (skipped & rest & -> & Hr).
    now exists (String c skipped), rest.
Qed.

Lemma search_spec pat : forall s,
  search pat s = true <->
  exists skipped rest, s = skipped ++ rest /\ match_here pat rest = true.
Proof.
  induction s as [|c s IH]; cbn [search]; rewrite orb_true_iff.
  - split.
    + intros [H|H]; [now exists "", "" | discriminate].
    + intros (skipped & rest & Hs & Hr). left.
      destruct skipped; [|discriminate]. rewrite append_nil_l in Hs. now subst.
  - rewrite IH. split.
    + intros [H|(skipped & rest & -> & Hr)].
      * now exists "", (String c s).
      * now exists (String c skipped), rest.
    + intros (skipped & rest & Hs & Hr). destruct skipped as [|c' skipped].
      * left. rewrite append_nil_l in Hs. now subst.
      * right. rewrite append_cons in Hs. injection Hs as -> ->. eauto.
Qed.

(** ".*" in front of a literal makes no difference to a search: the
    pattern is found wherever the literal occurs. *)
Lemma search_any_literals l s :
  search (Star AnyChar :: literals l) s = true <-> contains l s.
Proof.
  rewrite search_spec. unfold contains. split.
  - intros (skipped & rest & -> & Hr).
    apply match_here_star_inv in Hr as (skipped' & rest' & -> & Hr).
    apply match_here_literals in Hr as [after ->].
    exists (skipped ++ skipped'), after. now rewrite append_assoc.
  - intros (before & after & ->). exists before, (l ++ after). split; [reflexivity|].
    rewrite match_here_star. apply orb_true_iff. left.
    apply match_here_literals. eauto.
Qed.

(** ** The mapping *)

Lemma the_ifTable_load self : the_ifTable (load self) = the_ifTable self.
Proof.
  unfold load, the_ifTable, entPhysicalTable.
  destruct (_entPhysicalTable self); reflexivity.
Qed.

Lemma load_if_load_if self : load_if (load_if self) = load_if self.
Proof. apply (load_if_fixed _ _ (load_if_cached self)). Qed.

Lemma inner_loop_run ifTable_re k self : forall interfaces mapping,
  for_each interfaces mapping
    (fun mapping interface =>
       if re_search ifTable_re (ifDescr interface)
       then ret (setitem mapping k (if_suffix interface))
       else ret mapping) self
  = (Ok (match_interfaces ifTable_re k interfaces mapping), self).
Proof.
  induction interfaces as [|i interfaces IH]; intros mapping; [reflexivity|].
  cbn [for_each]. unfold match_interfaces. cbn [fold_left]. unfold bindM at 1.
  destruct (re_search ifTable_re (ifDescr i)); cbn [ret]; apply IH.
Qed.

Lemma outer_loop_run : forall ports mapping self,
  exists self',
    for_each ports mapping
      (fun mapping port =>
         (tokens <- lift (unpack2 (findall_digits (entPhysicalDescr port))) ;;
          interfaces <- ifTable ;;
          for_each (values interfaces) mapping
            (fun mapping interface =>
               if re_search (".*" ++ fst tokens ++ "/" ++ snd tokens) (ifDescr interface)
               then ret (setitem mapping (suffix port) (if_suffix interface))
               else ret mapping))%py) self
    = (descr_ports ports (values (the_ifTable self)) mapping, self')
    /\ (self' = self \/ self' = load_if self).
Proof.
  induction ports as [|port ports IH]; intros mapping self.
  - exists self. split; [reflexivity | now left].
  - cbn [for_each descr_ports]. unfold bindM at 1. unfold bindM at 1.
    unfold lift at 1, bind at 1.
    destruct (unpack2 (findall_digits (entPhysicalDescr port))) as [tokens|x].
    2:{ exists self. split; [reflexivity | now left]. }
    unfold bindM at 1. rewrite ifTable_run, inner_loop_run.
    destruct (IH (match_interfaces (".*" ++ tokens.1 ++ "/" ++ tokens.2) (suffix port)
                    (values (the_ifTable self)) mapping) (load_if self))
      as (s' & Hrun & Hs').
    exists s'. rewrite Hrun, the_ifTable_load_if. split; [reflexivity|].
    right. destruct Hs' as [->| ->]; [reflexivity | apply load_if_load_if].
Qed.

Lemma _descr_based_mapping_fst self :
  fst (_descr_based_mapping self)
  = descr_ports (values (ports_of (the_table self))) (values (the_ifTable self)) [].
Proof.
  unfold _descr_based_mapping. unfold bindM at 1. rewrite entPhysicalTable_run.
  destruct (outer_loop_run (values (ports_of (the_table self))) [] (load self))
    as (s' & Hrun & _).
  rewrite the_ifTable_load in Hrun.
  transitivity (fst (descr_ports (values (ports_of (the_table self)))
                                 (values (the_ifTable self)) [], s'));
    [|reflexivity].
  f_equal. exact Hrun.
Qed.

Lemma alias_loop_run aliases self : forall ports mapping,
  for_each ports mapping
    (fun mapping port =>
       (row <- lift (getitem aliases port) ;;
        let entAliasMappingIdentifier := entAliasMappingIdentifier row in
        component <- lift (last_item (split_dot entAliasMappingIdentifier)) ;;
        i <- lift (py_int component) ;;
        ret (setitem mapping port i))%py) self
  = (alias_ports aliases ports mapping, self).
Proof.
  induction ports as [|port ports IH]; intros mapping; [reflexivity|].
  cbn [for_each alias_ports]. unfold bindM at 1. unfold bindM at 1.
  unfold lift at 1, bind at 1.
  destruct (getitem aliases port) as [r|x]; [|reflexivity].
  cbv zeta. unfold bindM at 1. unfold lift at 1, bind at 1.
  destruct (last_item (split_dot (entAliasMappingIdentifier r))) as [component|x];
    [|reflexivity].
  unfold bindM at 1. unfold lift at 1, bind at 1.
  destruct (py_int component) as [i|x]; [|reflexivity].
  cbn [ret]. apply IH.
Qed.

Lemma get_mapping_fst self :
  fst (get_mapping self)
  = mapping_of (device_entAliasMappingTable (snmp self)) (the_table self)
               (the_ifTable self).
Proof.
  unfold get_mapping, mapping_of. unfold bindM at 1. cbn [walk].
  destruct (device_entAliasMappingTable (snmp self)) as [|a aliases] eqn:Ha.
  - rewrite _descr_based_mapping_fst. reflexivity.
  - unfold bindM at 1. rewrite entPhysicalTable_run, alias_loop_run. reflexivity.
Qed.

Lemma unpack2_other {A} (l : list A) :
  length l <> 2%nat -> unpack2 l = Raise (ValueError (Unpack (length l))).
Proof. destruct l as [|a [|b [|c l]]]; cbn; congruence. Qed.

Lemma unpack2_two {A} (l : list A) :
  length l = 2%nat -> exists a b, l = [a; b] /\ unpack2 l = Ok (a, b).
Proof. destruct l as [|a [|b [|c l]]]; cbn; try discriminate. eauto. Qed.

Lemma descr_ports_aborts interfaces : forall ports mapping,
  (exists port, In port ports
                /\ length (findall_digits (entPhysicalDescr port)) <> 2%nat) ->
  exists n, n <> 2%nat
            /\ descr_ports ports interfaces mapping = Raise (ValueError (Unpack n)).
Proof.
  induction ports as [|port ports IH]; intros mapping (bad & Hin & Hbad); [destruct Hin|].
  cbn [descr_ports].
  destruct (decide (length (findall_digits (entPhysicalDescr port)) = 2%nat)) as [Htwo|Hn].
  - destruct (unpack2_two _ Htwo) as (a & b & _ & ->). unfold bind.
    apply IH. exists bad. split; [|exact Hbad].
    destruct Hin as [->|Hin]; [contradiction | exact Hin].
  - rewrite (unpack2_other _ Hn). eauto.
Qed.

(** C2 (as amended): a port whose description does not hold exactly two
    runs of digits makes _descr_based_mapping raise the ValueError of the
    failed unpacking; no mapping is returned, whatever the other ports. *)
Theorem descr_mapping_aborts (self : AutoLoad) :
  (exists port, In port (values (ports_of (the_table self)))
                /\ length (findall_digits (entPhysicalDescr port)) <> 2%nat) ->
  exists n, n <> 2%nat
            /\ fst (_descr_based_mapping self) = Raise (ValueError (Unpack n)).
Proof. intros H. rewrite _descr_based_mapping_fst. now apply descr_ports_aborts. Qed.

Lemma descr_mapping_aborts_witness :
  exists n, n <> 2%nat
            /\ fst (_descr_based_mapping (init unnumbered_snmp))
               = Raise (ValueError (Unpack n)).
Proof.
  apply (descr_mapping_aborts (init unnumbered_snmp)).
  exists (snd (row 4 "'port'" 1 "Uplink")). split.
  - right. left. reflexivity.
  - vm_compute. discriminate.
Defined.

(** C2 (as stated) fails: the port without numbers is not skipped; the run
    raises and the port beside it, which maps to interface 10 on its own,
    gets no mapping. *)
Lemma unnumbered_port_aborts :
  fst (_descr_based_mapping (init numbered_snmp)) = Ok [(3, 10)]
  /\ fst (_descr_based_mapping (init unnumbered_snmp)) = Raise (ValueError (Unpack 0))
  /\ forall mapping, fst (_descr_based_mapping (init unnumbered_snmp)) <> Ok mapping.
Proof.
  split; [reflexivity|]. split; [reflexivity|]. intros mapping. discriminate.
Qed.

Lemma table_get_setitem {R} (d : table R) k v :
  table_get (setitem d k v) k = Some v.
Proof.
  induction d as [|[k' r] d IH]; cbn [setitem table_get].
  - now rewrite bool_decide_eq_true_2.
  - case_bool_decide as Hk; cbn [table_get].
    + now rewrite bool_decide_eq_true_2.
    + now rewrite (bool_decide_eq_false_2 _ Hk).
Qed.

Lemma match_interfaces_none ifTable_re k interfaces mapping :
  (forall i, In i interfaces -> re_search ifTable_re (ifDescr i) = false) ->
  match_interfaces ifTable_re k interfaces mapping = mapping.
Proof.
  unfold match_interfaces. revert mapping.
  induction interfaces as [|i interfaces IH]; intros mapping Hnone; [reflexivity|].
  cbn [fold_left]. rewrite (Hnone i) by now left.
  apply IH. intros j Hj. apply Hnone. now right.
Qed.

(** The inner loop overwrites: the interface recorded for a port is the
    last one that satisfies the expression. *)
Lemma match_interfaces_last ifTable_re k before i after mapping :
  re_search ifTable_re (ifDescr i) = true ->
  (forall j, In j after -> re_search ifTable_re (ifDescr j) = false) ->
  table_get (match_interfaces ifTable_re k (before ++ i :: after) mapping) k
  = Some (if_suffix i).
Proof.
  intros Hi Hafter. unfold match_interfaces. rewrite fold_left_app. cbn [fold_left].
  rewrite Hi.
  change (fold_left _ after ?m) with (match_interfaces ifTable_re k after m).
  rewrite (match_interfaces_none _ _ _ _ Hafter). apply table_get_setitem.
Qed.

(** C3 fails on the code: interfaces 10 and 20 both satisfy the expression
    of port 3, in this order, and the mapping returned records 20. *)
Theorem two_matches_record_last :
  values (device_ifTable two_match_snmp)
  = [snd (if_row 10 "GigabitEthernet1/2"); snd (if_row 20 "TenGigabitEthernet1/2")]
  /\ satisfies small_port (snd (if_row 10 "GigabitEthernet1/2")) = true
  /\ satisfies small_port (snd (if_row 20 "TenGigabitEthernet1/2")) = true
  /\ fst (_descr_based_mapping (init two_match_snmp)) = Ok [(3, 20)].
Proof. repeat split. Qed.

(** ** The match expression *)

(** The descriptions that satisfy the match expression built from two
    runs of digits [m] and [p] are those that contain "m/p". *)
Lemma re_search_contains (port : entity) (m p : string) (ifDescr : string) :
  findall_digits (entPhysicalDescr port) = [m; p] ->
  re_search (".*" ++ m ++ "/" ++ p) ifDescr = true <-> contains (m ++ "/" ++ p) ifDescr.
Proof.
  intros Htokens.
  pose proof (findall_digits_digits (entPhysicalDescr port)) as Hd.
  rewrite Htokens in Hd. inversion Hd as [|? ? Hm Hd']; subst.
  inversion Hd' as [|? ? Hp _]; subst.
  unfold re_search. rewrite (compile_ifTable_re _ _ Hm Hp).
  apply search_any_literals.
Qed.

(** C4 (as stated) fails: "Gi1/23" does not end with "1/2", yet it
    satisfies the expression of the port with tokens 1 and 2, and the
    mapping records its interface for that port. *)
Lemma longer_description_matches :
  findall_digits (entPhysicalDescr small_port) = ["1"; "2"]
  /\ ~ (exists before, "Gi1/23" = before ++ "1/2")
  /\ re_search (".*" ++ "1" ++ "/" ++ "2") "Gi1/23" = true
  /\ fst (_descr_based_mapping (init longer_snmp)) = Ok [(3, 23)].
Proof.
  split; [reflexivity|]. split; [|split; reflexivity].
  intros [before H].
  repeat (destruct before as [|? before]; [discriminate H|];
          rewrite append_cons in H; first [discriminate H | injection H as _ H]).
Qed.

(** ** Ports without an interface *)

Lemma setitem_keys {R} (d : table R) k v k' :
  In k' (keys (setitem d k v)) <-> k' = k \/ In k' (keys d).
Proof.
  induction d as [|[k0 r] d IH]; cbn [setitem keys map fst In].
  - intuition.
  - case_bool_decide as Hk; cbn [map fst In]; [subst; intuition|].
    fold (keys (setitem d k v)). fold (keys d). rewrite IH. intuition.
Qed.

Lemma match_interfaces_keys ifTable_re k interfaces : forall mapping k',
  In k' (keys (match_interfaces ifTable_re k interfaces mapping))
  <-> In k' (keys mapping)
      \/ (k' = k /\ exists i, In i interfaces /\ re_search ifTable_re (ifDescr i) = true).
Proof.
  unfold match_interfaces.
  induction interfaces as [|i interfaces IH]; intros mapping k'; cbn [fold_left].
  - split; [now left | intros [H|(_ & i & [] & _)]; exact H].
  - rewrite IH. destruct (re_search ifTable_re (ifDescr i)) eqn:Hi.
    + rewrite setitem_keys. split.
      * intros [[->|H]|(-> & j & Hj & Hm)]; [right|now left|right];
          (split; [reflexivity|]); [exists i | exists j]; split; auto; now (left + right).
      * intros [H|(-> & j & [<-|Hj] & Hm)]; [left; now right | left; now left |].
        right. split; [reflexivity|]. eauto.
    + split.
      * intros [H|(-> & j & Hj & Hm)]; [now left|].
        right. split; [reflexivity|]. exists j. split; [now right | exact Hm].
      * intros [H|(-> & j & [<-|Hj] & Hm)]; [now left | congruence |].
        right. split; [reflexivity|]. eauto.
Qed.

Lemma satisfies_tokens port i a b :
  findall_digits (entPhysicalDescr port) = [a; b] ->
  satisfies port i = re_search (".*" ++ a ++ "/" ++ b) (ifDescr i).
Proof. intros H. unfold satisfies. now rewrite H. Qed.

Lemma descr_ports_keys interfaces : forall ports mapping,
  (forall port, In port ports ->
                length (findall_digits (entPhysicalDescr port)) = 2%nat) ->
  exists mapping', descr_ports ports interfaces mapping = Ok mapping'
    /\ forall k, In k (keys mapping')
                 <-> In k (keys mapping)
                     \/ exists port i, In port ports /\ suffix port = k
                                       /\ In i interfaces /\ satisfies port i = true.
Proof.
  induction ports as [|port ports IH]; intros mapping Htwo; cbn [descr_ports].
  - exists mapping. split; [reflexivity|]. intros k. split; [now left|].
    intros [H|(p & i & [] & _)]. exact H.
  - destruct (unpack2_two _ (Htwo port ltac:(now left))) as (a & b & Htokens & ->).
    unfold bind. cbn [fst snd].
    destruct (IH (match_interfaces (".*" ++ a ++ "/" ++ b) (suffix port) interfaces mapping))
      as (mapping' & -> & Hkeys).
    { intros p Hp. apply Htwo. now right. }
    exists mapping'. split; [reflexivity|]. intros k.
    rewrite Hkeys, match_interfaces_keys. split.
    + intros [[H|(-> & i & Hi & Hm)]|(p & i & Hp & Hs & Hi & Hm)].
      * now left.
      * right. exists port, i. rewrite (satisfies_tokens _ _ _ _ Htokens).
        repeat split; auto. now left.
      * right. exists p, i. repeat split; auto. now right.
    + intros [H|(p & i & [<-|Hp] & Hs & Hi & Hm)].
      * left. now left.
      * left. right. split; [now symmetry|]. exists i.
        rewrite <- (satisfies_tokens _ _ _ _ Htokens). auto.
      * right. exists p, i. auto.
Qed.

Lemma table_get_setitem_ne {R} (d : table R) k v k' :
  k <> k' -> table_get (setitem d k v) k' = table_get d k'.
Proof.
  intros Hne. induction d as [|[k0 r] d IH]; cbn [setitem table_get].
  - now rewrite bool_decide_eq_false_2.
  - case_bool_decide as Hk; cbn [table_get].
    + subst k0. now rewrite !(bool_decide_eq_false_2 _ Hne).
    + now rewrite IH.
Qed.

Lemma match_interfaces_other ifTable_re k interfaces k' : forall mapping,
  k <> k' ->
  table_get (match_interfaces ifTable_re k interfaces mapping) k' = table_get mapping k'.
Proof.
  unfold match_interfaces.
  induction interfaces as [|i interfaces IH]; intros mapping Hne; cbn [fold_left];
    [reflexivity|].
  destruct (re_search ifTable_re (ifDescr i)); [|now apply IH].
  rewrite IH by exact Hne. now apply table_get_setitem_ne.
Qed.

Lemma unpack2_Ok {A} (l : list A) (t : A * A) :
  unpack2 l = Ok t -> l = [fst t; snd t].
Proof.
  destruct l as [|a [|b [|c l]]]; cbn; try discriminate. now intros [= <-].
Qed.

Lemma descr_ports_two interfaces : forall ports mapping mapping',
  descr_ports ports interfaces mapping = Ok mapping' ->
  forall port, In port ports ->
               length (findall_digits (entPhysicalDescr port)) = 2%nat.
Proof.
  induction ports as [|port ports IH]; intros mapping mapping' H p Hp; [destruct Hp|].
  cbn [descr_ports] in H. unfold bind in H.
  destruct (unpack2 (findall_digits (entPhysicalDescr port))) as [tokens|] eqn:Hu;
    [|discriminate].
  destruct Hp as [<-|Hp].
  - now rewrite (unpack2_Ok _ _ Hu).
  - now apply (IH _ _ H).
Qed.

Lemma match_interfaces_value ifTable_re k interfaces : forall mapping v,
  table_get (match_interfaces ifTable_re k interfaces mapping) k = Some v ->
  table_get mapping k = Some v
  \/ exists i, In i interfaces /\ re_search ifTable_re (ifDescr i) = true
               /\ if_suffix i = v.
Proof.
  unfold match_interfaces.
  induction interfaces as [|i interfaces IH]; intros mapping v; cbn [fold_left];
    [now left|].
  intros H. destruct (re_search ifTable_re (ifDescr i)) eqn:Hi.
  - destruct (IH _ _ H) as [Hset|(j & Hj & Hm & Hv)].
    + rewrite table_get_setitem in Hset. injection Hset as <-.
      right. exists i. split; [now left | auto].
    + right. exists j. split; [now right | auto].
  - destruct (IH _ _ H) as [Hold|(j & Hj & Hm & Hv)]; [now left|].
    right. exists j. split; [now right | auto].
Qed.

Lemma descr_ports_entry interfaces : forall ports mapping mapping',
  descr_ports ports interfaces mapping = Ok mapping' ->
  forall k v, table_get mapping' k = Some v ->
  table_get mapping k = Some v
  \/ exists port i, In port ports /\ suffix port = k /\ In i interfaces
                    /\ satisfies port i = true /\ if_suffix i = v.
Proof.
  induction ports as [|port ports IH]; intros mapping mapping'; cbn [descr_ports].
  - intros [= <-] k v Hv. now left.
  - unfold bind.
    destruct (unpack2 (findall_digits (entPhysicalDescr port))) as [tokens|] eqn:Hu;
      [|discriminate].
    apply unpack2_Ok in Hu. intros H k v Hv.
    destruct (IH _ _ H k v Hv) as [Hm1|(p & i & Hp & Hrest)].
    + destruct (decide (suffix port = k)) as [<-|Hne].
      * destruct (match_interfaces_value _ _ _ _ _ Hm1) as [Hold|(i & Hi & Hm & Hsuffix)];
          [now left|].
        right. exists port, i. rewrite (satisfies_tokens _ _ _ _ Hu).
        split; [now left | auto].
      * left. now rewrite match_interfaces_other in Hm1.
    + right. exists p, i. split; [now right | exact Hrest].
Qed.

(** C4 (as amended): in descriptor-based mapping a port with tokens [m] and
    [p] is matched against the interfaces whose description contains "m/p",
    at its end or anywhere before it: when _descr_based_mapping returns, a
    port some interface description of which contains "m/p" has an entry,
    and every entry records an interface whose description contains the
    "m/p" of its port.  It returns when every port description holds two
    runs of digits. *)
Theorem descr_mapping_contains (self : AutoLoad) :
  ((forall port, In port (values (ports_of (the_table self))) ->
                 length (findall_digits (entPhysicalDescr port)) = 2%nat) ->
   exists mapping, fst (_descr_based_mapping self) = Ok mapping)
  /\ forall mapping, fst (_descr_based_mapping self) = Ok mapping ->
       (forall port m p,
          In port (values (ports_of (the_table self))) ->
          findall_digits (entPhysicalDescr port) = [m; p] ->
          (exists i, In i (values (the_ifTable self))
                     /\ contains (m ++ "/" ++ p) (ifDescr i)) ->
          In (suffix port) (keys mapping))
       /\ (forall k v, table_get mapping k = Some v ->
             exists port m p i,
               In port (values (ports_of (the_table self)))
               /\ suffix port = k
               /\ findall_digits (entPhysicalDescr port) = [m; p]
               /\ In i (values (the_ifTable self))
               /\ if_suffix i = v
               /\ contains (m ++ "/" ++ p) (ifDescr i)).
Proof.
  rewrite _descr_based_mapping_fst. split.
  - intros Htwo.
    destruct (descr_ports_keys (values (the_ifTable self)) _ [] Htwo) as (mapping & -> & _).
    eauto.
  - intros mapping Hm. split.
    + intros port m p Hport Htokens (i & Hi & Hcontains).
      destruct (descr_ports_keys (values (the_ifTable self)) _ []
                  (descr_ports_two _ _ _ _ Hm)) as (mapping' & Hm' & Hkeys).
      rewrite Hm in Hm'. injection Hm' as <-.
      apply Hkeys. right. exists port, i.
      rewrite (satisfies_tokens _ _ _ _ Htokens).
      repeat split; auto. now apply (re_search_contains port).
    + intros k v Hv.
      destruct (descr_ports_entry _ _ _ _ Hm k v Hv)
        as [Hnil|(port & i & Hport & Hk & Hi & Hsat & Hsuffix)]; [discriminate|].
      destruct (unpack2_two _ (descr_ports_two _ _ _ _ Hm port Hport))
        as (m & p & Htokens & _).
      exists port, m, p, i. rewrite (satisfies_tokens _ _ _ _ Htokens) in Hsat.
      repeat split; auto. now apply (re_search_contains port).
Qed.

Lemma descr_mapping_contains_witness :
  In 3 (keys [(3, 23)])
  /\ exists port m p i,
       In port (values (ports_of (the_table (init longer_snmp))))
       /\ suffix port = 3
       /\ findall_digits (entPhysicalDescr port) = [m; p]
       /\ In i (values (the_ifTable (init longer_snmp)))
       /\ if_suffix i = 23
       /\ contains (m ++ "/" ++ p) (ifDescr i).
Proof.
  destruct (descr_mapping_contains (init longer_snmp)) as [_ Hmatch].
  destruct (Hmatch [(3, 23)] ltac:(reflexivity)) as [Hkey Hentry].
  split.
  - apply (Hkey (snd (row 3 "'port'" 1 "Port 1/2")) "1" "2").
    + left. reflexivity.
    + reflexivity.
    + exists (snd (if_row 23 "Gi1/23")). split; [now left|].
      exists "Gi", "3". reflexivity.
  - apply (Hentry 3 23). reflexivity.
Defined.

(** An identifier that does not end in an integer raises ValueError before
    the missing row of the next port is reached. *)
Example misaliased_port_raises_ValueError :
  fst (get_mapping (init misaliased_snmp)) = Raise (ValueError (IntLiteral "abc")).
Proof. reflexivity. Qed.

Lemma alias_ports_missing aliases : forall ports mapping,
  (exists k, In k ports /\ table_get aliases k = None) ->
  exists x, alias_ports aliases ports mapping = Raise x.
Proof.
  induction ports as [|port ports IH]; intros mapping (k & Hin & Hnone); [destruct Hin|].
  cbn [alias_ports]. unfold getitem.
  destruct (table_get aliases port) as [r|] eqn:Hrow; [|cbn; eauto].
  unfold bind at 1.
  destruct (last_item _) as [component|x]; [|cbn; eauto]. unfold bind at 1.
  destruct (py_int component) as [i|x]; [|cbn; eauto]. unfold bind.
  apply IH. exists k. split; [|exact Hnone].
  destruct Hin as [->|Hin]; [congruence | exact Hin].
Qed.

Lemma alias_ports_first_missing aliases k after : forall before mapping,
  (forall j, In j before ->
     exists r i, table_get aliases j = Some r /\ alias_index r = Ok i) ->
  table_get aliases k = None ->
  alias_ports aliases (before ++ k :: after) mapping = Raise (KeyError (IntKey k)).
Proof.
  induction before as [|port before IH]; intros mapping Hrows Hnone;
    cbn [app alias_ports]; unfold getitem.
  - now rewrite Hnone.
  - destruct (Hrows port ltac:(now left)) as (r & i & Hr & Hi).
    rewrite Hr. unfold bind at 1. unfold alias_index, bind in Hi.
    destruct (last_item (split_dot (entAliasMappingIdentifier r))) as [component|];
      [|discriminate].
    unfold bind at 1. rewrite Hi. unfold bind.
    apply IH; [|exact Hnone]. intros j Hj. apply Hrows. now right.
Qed.

Lemma alias_ports_first_unread aliases k r x after : forall before mapping,
  (forall j, In j before ->
     exists r i, table_get aliases j = Some r /\ alias_index r = Ok i) ->
  table_get aliases k = Some r -> alias_index r = Raise x ->
  alias_ports aliases (before ++ k :: after) mapping = Raise x.
Proof.
  induction before as [|port before IH]; intros mapping Hrows Hr Hx;
    cbn [app alias_ports]; unfold getitem.
  - rewrite Hr. unfold bind at 1. unfold alias_index, bind in Hx.
    destruct (last_item (split_dot (entAliasMappingIdentifier r))) as [component|y];
      [|unfold bind; congruence].
    unfold bind at 1. now rewrite Hx.
  - destruct (Hrows port ltac:(now left)) as (r' & i & Hr' & Hi).
    rewrite Hr'. unfold bind at 1. unfold alias_index, bind in Hi.
    destruct (last_item (split_dot (entAliasMappingIdentifier r'))) as [component|];
      [|discriminate].
    unfold bind at 1. rewrite Hi. unfold bind.
    apply IH; [|exact Hr|exact Hx]. intros j Hj. apply Hrows. now right.
Qed.

Lemma split_dot_from_last s : forall cur,
  exists component, last_item (split_dot_from cur s) = Ok component.
Proof.
  unfold last_item. induction s as [|c s IH]; intros cur; cbn [split_dot_from].
  - cbn. eauto.
  - case_bool_decide; [|apply IH].
    destruct (IH "") as [component Hc]. cbn [rev].
    destruct (rev (split_dot_from "" s)) as [|y l]; [discriminate|].
    cbn. eauto.
Qed.

Lemma alias_index_raises row x :
  alias_index row = Raise x -> exists v, x = ValueError v.
Proof.
  unfold alias_index, split_dot, bind.
  destruct (split_dot_from_last (entAliasMappingIdentifier row) "") as [component ->].
  unfold py_int. destruct (match rstrip (lstrip component) with
                           | EmptyString => _ | String _ _ => _ end);
    [discriminate|]. intros [= <-]. eauto.
Qed.

(** C5 (as amended): without an alias table, and with two runs of digits in
    the description of every port, get_mapping returns a mapping whose keys
    are exactly the indices of the ports some interface satisfies; a port
    no interface satisfies is absent from it.  With an alias table, a port
    that has no row in it makes get_mapping raise.  What is raised is
    decided by the first port, in table order, whose alias row is missing
    or does not end in an integer: the KeyError of the failed subscript
    for a missing row, the ValueError of int() otherwise. *)
Theorem get_mapping_omission (self : AutoLoad) :
  (device_entAliasMappingTable (snmp self) = [] ->
   (forall port, In port (values (ports_of (the_table self))) ->
                 length (findall_digits (entPhysicalDescr port)) = 2%nat) ->
   exists mapping, fst (get_mapping self) = Ok mapping
     /\ forall k, In k (keys mapping)
                  <-> exists port i, In port (values (ports_of (the_table self)))
                                     /\ suffix port = k
                                     /\ In i (values (the_ifTable self))
                                     /\ satisfies port i = true)
  /\ (device_entAliasMappingTable (snmp self) <> [] ->
      (exists k, In k (keys (ports_of (the_table self)))
                 /\ table_get (device_entAliasMappingTable (snmp self)) k = None) ->
      exists x, fst (get_mapping self) = Raise x)
  /\ (device_entAliasMappingTable (snmp self) <> [] ->
      forall before k after,
        keys (ports_of (the_table self)) = (before ++ k :: after)%list ->
        (forall j, In j before ->
           exists r i, table_get (device_entAliasMappingTable (snmp self)) j = Some r
                       /\ alias_index r = Ok i) ->
        (table_get (device_entAliasMappingTable (snmp self)) k = None ->
         fst (get_mapping self) = Raise (KeyError (IntKey k)))
        /\ (forall r x,
              table_get (device_entAliasMappingTable (snmp self)) k = Some r ->
              alias_index r = Raise x ->
              fst (get_mapping self) = Raise x /\ exists v, x = ValueError v)).
Proof.
  rewrite get_mapping_fst. unfold mapping_of. split; [|split].
  - intros -> Htwo.
    destruct (descr_ports_keys (values (the_ifTable self)) _ [] Htwo)
      as (mapping & -> & Hkeys).
    exists mapping. split; [reflexivity|]. intros k. rewrite Hkeys. split.
    + intros [[]|H]. exact H.
    + intros H. now right.
  - intros Hne Hmissing.
    destruct (device_entAliasMappingTable (snmp self)) as [|a aliases]; [congruence|].
    now apply alias_ports_missing.
  - intros Hne before k after Hports Hrows.
    destruct (device_entAliasMappingTable (snmp self)) as [|a aliases]; [congruence|].
    rewrite Hports. split.
    + intros Hnone. now apply alias_ports_first_missing.
    + intros r x Hr Hx. split.
      * now apply (alias_ports_first_unread _ _ r).
      * now apply (alias_index_raises r).
Qed.

Lemma get_mapping_omission_witness :
  (exists mapping, fst (get_mapping (init (device small_table [] []))) = Ok mapping
     /\ ~ In 3 (keys mapping))
  /\ (exists x, fst (get_mapping (init half_aliased_snmp)) = Raise x)
  /\ fst (get_mapping (init half_aliased_snmp)) = Raise (KeyError (IntKey 4))
  /\ fst (get_mapping (init misaliased_snmp)) = Raise (ValueError (IntLiteral "abc")).
Proof.
  split; [|split; [|split]].
  - destruct (get_mapping_omission (init (device small_table [] []))) as [Hdescr _].
    destruct Hdescr as (mapping & Hm & Hkeys).
    + reflexivity.
    + intros port [<-|[]]. reflexivity.
    + exists mapping. split; [exact Hm|].
      intros H. apply Hkeys in H as (port & i & _ & _ & [] & _).
  - destruct (get_mapping_omission (init half_aliased_snmp)) as (_ & Halias & _).
    apply Halias.
    + discriminate.
    + exists 4. split; [right; left|]; reflexivity.
  - destruct (get_mapping_omission (init half_aliased_snmp)) as (_ & _ & Hfirst).
    destruct (Hfirst ltac:(discriminate) [3] 4 []) as [Hmissing _].
    + reflexivity.
    + intros j [<-|[]]. eexists. eexists. split; reflexivity.
    + apply Hmissing. reflexivity.
  - destruct (get_mapping_omission (init misaliased_snmp)) as (_ & _ & Hfirst).
    destruct (Hfirst ltac:(discriminate) [] 3 [4]) as [_ Hunread].
    + reflexivity.
    + intros j [].
    + apply (Hunread {| entAliasMappingIdentifier := "ifIndex.abc" |}); reflexivity.
Defined.

(** C5 (as stated) fails: port 4 has no row in the alias table and
    get_mapping raises the KeyError of the failed subscript; no mapping is
    returned, not even for port 3, whose row is there. *)
Lemma unaliased_port_raises :
  table_get (device_entAliasMappingTable half_aliased_snmp) 4 = None
  /\ fst (get_mapping (init half_aliased_snmp)) = Raise (KeyError (IntKey 4))
  /\ forall mapping, fst (get_mapping (init half_aliased_snmp)) <> Ok mapping.
Proof.
  split; [reflexivity|]. split; [reflexivity|]. intros mapping. discriminate.
Qed.

(** ** Fetches *)

Lemma accounted_load n self : accounted n self -> accounted n (load self).
Proof.
  unfold accounted, load, entPhysicalTable, fetches.
  destruct (_entPhysicalTable self) eqn:E; cbn; [now rewrite E|].
  rewrite !List.filter_app, !List.length_app. cbn. intros (-> & -> & ->).
  repeat split; repeat case_bool_decide; try discriminate; try congruence; cbn; lia.
Qed.

Lemma accounted_load_if n self : accounted n self -> accounted n (load_if self).
Proof.
  unfold accounted, load_if, ifTable, fetches.
  destruct (_ifTable self) eqn:E; cbn; [now rewrite E|].
  rewrite !List.filter_app, !List.length_app. cbn. intros (-> & -> & ->).
  repeat split; repeat case_bool_decide; try discriminate; try congruence; cbn; lia.
Qed.

Lemma accounted_walk_alias n self :
  accounted n self ->
  accounted (S n) (snd (walk ("ENTITY-MIB", "entAliasMappingTable")
                             device_entAliasMappingTable self)).
Proof.
  unfold accounted, fetches. cbn.
  rewrite !List.filter_app, !List.length_app. cbn. intros (-> & -> & ->).
  repeat split; repeat case_bool_decide; try discriminate; try congruence; cbn; lia.
Qed.

Lemma _descr_based_mapping_state self :
  snd (_descr_based_mapping self) = load self
  \/ snd (_descr_based_mapping self) = load_if (load self).
Proof.
  assert (Hrun : exists s', snd (_descr_based_mapping self) = s'
                            /\ (s' = load self \/ s' = load_if (load self))).
  { unfold _descr_based_mapping. unfold bindM at 1. rewrite entPhysicalTable_run.
    destruct (outer_loop_run (values (ports_of (the_table self))) [] (load self))
      as (s' & Hrun & Hs').
    apply (f_equal snd) in Hrun. cbn [snd] in Hrun. exists s'. split; assumption. }
  destruct Hrun as (s' & -> & Hs'). exact Hs'.
Qed.

Lemma accounted_perform frames c n self :
  accounted n self ->
  accounted (if is_get_mapping c then S n else n) (perform frames c self).
Proof.
  intros Hacc. destruct c as [| | | | |e|e]; cbn [perform is_get_mapping].
  - now apply accounted_load.
  - now apply accounted_load_if.
  - rewrite get_hierarchy_run. now apply accounted_load.
  - unfold get_mapping. unfold bindM at 1.
    destruct (walk ("ENTITY-MIB", "entAliasMappingTable")
                   device_entAliasMappingTable self) as [r s0] eqn:Hwalk.
    assert (Hs0 : accounted (S n) s0).
    { replace s0 with (snd (walk ("ENTITY-MIB", "entAliasMappingTable")
                                 device_entAliasMappingTable self)) by now rewrite Hwalk.
      now apply accounted_walk_alias. }
    assert (Hr : r = Ok (device_entAliasMappingTable (snmp self))).
    { unfold walk in Hwalk. now injection Hwalk as <- _. }
    subst r. destruct (device_entAliasMappingTable (snmp self)) as [|a aliases].
    + destruct (_descr_based_mapping_state s0) as [->| ->].
      * now apply accounted_load.
      * now apply accounted_load_if, accounted_load.
    + unfold bindM at 1. rewrite entPhysicalTable_run, alias_loop_run.
      now apply accounted_load.
  - destruct (_descr_based_mapping_state self) as [->| ->].
    + now apply accounted_load.
    + now apply accounted_load_if, accounted_load.
  - destruct (get_parent_run frames e self) as (s' & -> & [->| ->]); cbn [snd];
      [exact Hacc | now apply accounted_load].
  - destruct (get_parents_run frames e [] self) as (s' & -> & [->| ->]); cbn [snd];
      [exact Hacc | now apply accounted_load].
Qed.

Lemma accounted_session frames : forall calls n self,
  accounted n self ->
  accounted (n + length (List.filter is_get_mapping calls)) (session frames calls self).
Proof.
  unfold session. induction calls as [|c calls IH]; intros n self Hacc; cbn [fold_left].
  - cbn. now rewrite Nat.add_0_r.
  - apply (accounted_perform frames c) in Hacc. apply IH in Hacc.
    cbn [List.filter]. destruct (is_get_mapping c); cbn [length] in *.
    + now rewrite Nat.add_succ_r.
    + exact Hacc.
Qed.

(** C6 (as amended): over any sequence of calls on a new AutoLoad object,
    entPhysicalTable and ifTable are each fetched at most once, by the
    access that fills the cache, while entAliasMappingTable is fetched by
    every call of get_mapping. *)
Theorem fetches_per_session (t : table entity) (interfaces : table interface)
    (aliases : table alias) (frames : nat) (calls : list call) :
  let self := session frames calls (init (device t interfaces aliases)) in
  fetches ("ENTITY-MIB", "entPhysicalTable") self = cached (_entPhysicalTable self)
  /\ (fetches ("ENTITY-MIB", "entPhysicalTable") self <= 1)%nat
  /\ fetches ("IF-MIB", "ifTable") self = cached (_ifTable self)
  /\ (fetches ("IF-MIB", "ifTable") self <= 1)%nat
  /\ fetches ("ENTITY-MIB", "entAliasMappingTable") self
     = length (List.filter is_get_mapping calls).
Proof.
  intros self.
  assert (Hinit : accounted 0 (init (device t interfaces aliases)))
    by (repeat split).
  destruct (accounted_session frames calls 0 _ Hinit) as (Hent & Hif & Halias).
  fold self in Hent, Hif, Halias. repeat split; try assumption.
  - rewrite Hent. destruct (_entPhysicalTable self); cbn; lia.
  - rewrite Hif. destruct (_ifTable self); cbn; lia.
Qed.

(** C6 (as stated) fails for the alias table: two calls of get_mapping on
    one object fetch it twice, while the tables behind the cached
    properties are fetched once. *)
Lemma alias_table_fetched_again :
  walks (snmp (session 4 [Call_get_mapping; Call_get_mapping] (init numbered_snmp)))
  = [ ("ENTITY-MIB", "entAliasMappingTable");
      ("ENTITY-MIB", "entPhysicalTable");
      ("IF-MIB", "ifTable");
      ("ENTITY-MIB", "entAliasMappingTable") ]
  /\ fetches ("ENTITY-MIB", "entAliasMappingTable")
       (session 4 [Call_get_mapping; Call_get_mapping] (init numbered_snmp)) = 2%nat.
Proof. split; reflexivity. Qed.

(** * Further properties of the methods *)

(** ** get_parent and get_parents *)

Lemma autolad_parents_module c l :
  assoc autolad_parents c = Some l -> "'module'" ∈ l -> c = "'port'".
Proof.
  unfold autolad_parents. cbn [assoc].
  repeat case_bool_decide; intros [= <-]; subst; intros Hin;
    repeat match goal with
           | H : _ ∈ _ :: _ |- _ => apply elem_of_cons in H; destruct H
           | H : _ ∈ [] |- _ => apply elem_of_nil in H; destruct H
           end; congruence.
Qed.

Lemma climb_above frames t e0 : forall e p,
  above t e0 e -> climb frames t e = Ok p ->
  above t e0 p
  /\ (entPhysicalClass p = "'module'" ->
      exists x, above t e0 x /\ entPhysicalClass x = "'port'"
                /\ table_get t (entPhysicalContainedIn x) = Some p).
Proof.
  induction frames as [|f IH]; intros e p Habove; cbn [climb]; [discriminate|].
  unfold getitem, autolad_parents_getitem, bind.
  destruct (table_get t (entPhysicalContainedIn e)) as [parent|] eqn:Hg; [|discriminate].
  destruct (assoc autolad_parents (entPhysicalClass e)) as [valid|] eqn:Hr; [|discriminate].
  assert (Hparent : above t e0 parent) by (eapply above_step; eauto).
  case_bool_decide as Hin.
  - intros [= ->]. split; [exact Hparent|]. intros Hm. exists e.
    split; [exact Habove|]. split; [|exact Hg].
    rewrite Hm in Hin. exact (autolad_parents_module _ _ Hr Hin).
  - now apply IH.
Qed.

(** X1: what get_parent returns is a row of the table of class module or
    chassis, above the entity on its containment path.  When it is a
    module, it is the direct container of a port that is the entity itself
    or a row above it on that path: a module is reached only from a port
    it holds directly. *)
Theorem get_parent_result (self : AutoLoad) (frames : nat) (e p : entity) :
  fst (get_parent frames e self) = Ok p ->
  (exists k, table_get (the_table self) k = Some p)
  /\ (entPhysicalClass p = "'module'" \/ entPhysicalClass p = "'chassis'")
  /\ above (the_table self) e p
  /\ (entPhysicalClass p = "'module'" ->
      exists x, above (the_table self) e x /\ entPhysicalClass x = "'port'"
                /\ table_get (the_table self) (entPhysicalContainedIn x) = Some p).
Proof.
  rewrite get_parent_fst. intros H.
  destruct (climb_Ok _ _ _ _ H) as [[Hrow Hclass] _].
  destruct (climb_above _ _ e _ _ (above_self _ e) H) as [Habove Hmodule].
  auto.
Qed.

Lemma get_parent_result_witness :
  (exists k, table_get piggyback_table k = Some carrier_module)
  /\ (entPhysicalClass carrier_module = "'module'"
      \/ entPhysicalClass carrier_module = "'chassis'")
  /\ above piggyback_table carried_port carrier_module
  /\ (entPhysicalClass carrier_module = "'module'" ->
      exists x, above piggyback_table carried_port x /\ entPhysicalClass x = "'port'"
                /\ table_get piggyback_table (entPhysicalContainedIn x)
                   = Some carrier_module).
Proof.
  apply (get_parent_result (init (device piggyback_table [] [])) 3 carried_port
           carrier_module).
  reflexivity.
Defined.

Lemma chain_accumulator frames t : forall e parents,
  chain frames t e parents
  = match chain frames t e [] with
    | Ok c => Ok (parents ++ c)%list
    | Raise x => Raise x
    end.
Proof.
  induction frames as [|f IH]; intros e parents; cbn [chain]; [reflexivity|].
  case_bool_decide; [reflexivity|]. unfold bind.
  destruct (climb f t e) as [parent|x]; [|reflexivity].
  rewrite (IH parent (parents ++ [e])%list), (IH parent ([] ++ [e])%list).
  destruct (chain f t parent []) as [c|x]; [|reflexivity].
  now rewrite <- app_assoc.
Qed.

(** X2: the chain handed to get_parents is only extended: the call returns
    it followed by the chain a call without it returns, and raises what
    that call raises. *)
Theorem get_parents_accumulator (self : AutoLoad) (frames : nat) (e : entity)
    (parents : list entity) :
  fst (get_parents frames e parents self)
  = match fst (get_parents frames e [] self) with
    | Ok c => Ok (parents ++ c)%list
    | Raise x => Raise x
    end.
Proof. rewrite !get_parents_fst. apply chain_accumulator. Qed.

Lemma chain_levels frames t : forall e parents c,
  chain frames t e parents = Ok c ->
  exists rest, c = (parents ++ e :: rest)%list
    /\ Forall (fun x => entPhysicalClass x <> "'chassis'") (removelast (e :: rest)).
Proof.
  induction frames as [|f IH]; intros e parents c; cbn [chain]; [discriminate|].
  case_bool_decide as Hc.
  - intros [= <-]. exists []. split; [reflexivity | constructor].
  - unfold bind. destruct (climb f t e) as [parent|] eqn:Hp; [|discriminate].
    intros H. destruct (IH _ _ _ H) as (rest & -> & Hrest).
    exists (parent :: rest). rewrite <- app_assoc. split; [reflexivity|].
    change (removelast (e :: parent :: rest)) with (e :: removelast (parent :: rest)).
    now constructor.
Qed.

Lemma removelast_lookup {A} (l : list A) i x :
  l !! i = Some x -> (i + 1 < length l)%nat -> removelast l !! i = Some x.
Proof.
  revert i. induction l as [|a l IH]; intros i; [discriminate|].
  destruct l as [|b l].
  - cbn [length]. lia.
  - change (removelast (a :: b :: l)) with (a :: removelast (b :: l)).
    destruct i as [|i]; [trivial|]. cbn [lookup list_lookup length].
    intros Hx Hi. apply IH; [exact Hx | cbn [length]; lia].
Qed.

(** X3: in a chain get_parents returns, the chassis is the last element
    and the only one; every element after the first is a row of the table,
    and those before the last are modules. *)
Theorem get_parents_levels (self : AutoLoad) (frames : nat) (e : entity)
    (c : list entity) (i : nat) (x : entity) :
  fst (get_parents frames e [] self) = Ok c ->
  c !! i = Some x ->
  ((i + 1 = length c)%nat <-> entPhysicalClass x = "'chassis'")
  /\ ((0 < i)%nat -> exists k, table_get (the_table self) k = Some x)
  /\ ((0 < i)%nat -> (i + 1 < length c)%nat -> entPhysicalClass x = "'module'").
Proof.
  rewrite get_parents_fst. intros Hc Hx.
  destruct (chain_Ok _ _ _ _ _ Hc) as (rest & Heq & Hrows & (y & Hlast & Hy) & _).
  destruct (chain_levels _ _ _ _ _ Hc) as (rest' & Heq' & Hnot).
  cbn [app] in Heq, Heq'. subst c. injection Heq' as <-.
  assert (Hlen : (i < length (e :: rest))%nat) by (eapply lookup_lt_Some; eauto).
  assert (Hinner : (i + 1 < length (e :: rest))%nat ->
                   entPhysicalClass x <> "'chassis'").
  { intros Hi. rewrite Forall_forall in Hnot. apply Hnot.
    apply (list_elem_of_lookup_2 _ i). apply removelast_lookup; assumption. }
  assert (Hrow : (0 < i)%nat -> parent_row (the_table self) x).
  { intros Hi. destruct i as [|i]; [lia|]. cbn in Hx.
    rewrite Forall_forall in Hrows. apply Hrows. eapply list_elem_of_lookup_2; eauto. }
  split; [|split].
  - split.
    + intros Hi. rewrite last_lookup in Hlast.
      replace (pred (length (e :: rest))) with i in Hlast by lia. congruence.
    + intros Hclass. destruct (decide (i + 1 = length (e :: rest))%nat); [trivial|].
      exfalso. apply Hinner; [lia | exact Hclass].
  - intros Hi. now apply Hrow.
  - intros Hi Hi'. destruct (Hrow Hi) as [_ [Hm|Hch]]; [exact Hm|].
    exfalso. now apply Hinner.
Qed.

Lemma get_parents_levels_witness :
  ((1 + 1 = 3)%nat <-> entPhysicalClass slotted_module = "'chassis'")
  /\ ((0 < 1)%nat -> exists k, table_get slotted_table k = Some slotted_module)
  /\ ((0 < 1)%nat -> (1 + 1 < 3)%nat -> entPhysicalClass slotted_module = "'module'").
Proof.
  apply (get_parents_levels (init (device slotted_table [] [])) 6 direct_port
           [direct_port; slotted_module; small_chassis] 1 slotted_module).
  - reflexivity.
  - reflexivity.
Defined.

(** ** get_hierarchy *)

Lemma record_edge_new hierarchy k c : has_edge (record_edge hierarchy k c) k c.
Proof.
  unfold has_edge, record_edge. eexists. rewrite lookup_insert_eq.
  split; [reflexivity|]. apply elem_of_app. right. now apply list_elem_of_singleton.
Qed.

Lemma record_edge_keeps hierarchy k c k' c' :
  has_edge hierarchy k' c' -> has_edge (record_edge hierarchy k c) k' c'.
Proof.
  intros (l & Hl & Hin). unfold has_edge, record_edge.
  destruct (decide (k = k')) as [->|Hne].
  - rewrite lookup_insert_eq, Hl. eexists. split; [reflexivity|].
    destruct l as [|a l]; [now apply elem_of_nil in Hin|].
    apply elem_of_app. now left.
  - rewrite lookup_insert_ne by exact Hne. eauto.
Qed.

Lemma record_edge_inv hierarchy k c k' c' :
  has_edge (record_edge hierarchy k c) k' c' ->
  has_edge hierarchy k' c' \/ (k' = k /\ c' = c).
Proof.
  unfold has_edge, record_edge. intros (l & Hl & Hin).
  destruct (decide (k = k')) as [->|Hne].
  - rewrite lookup_insert_eq in Hl. injection Hl as <-.
    apply elem_of_app in Hin as [Hin|Hin].
    + left. destruct (hierarchy !! k') as [[|a l]|]; try now apply elem_of_nil in Hin.
      eauto.
    + right. apply list_elem_of_singleton in Hin. auto.
  - rewrite lookup_insert_ne in Hl by exact Hne. left. eauto.
Qed.

Lemma record_edge_nonempty hierarchy k c :
  (forall k' l, hierarchy !! k' = Some l -> l <> []) ->
  forall k' l, record_edge hierarchy k c !! k' = Some l -> l <> [].
Proof.
  intros Hne k' l. unfold record_edge.
  destruct (decide (k = k')) as [->|Hk].
  - rewrite lookup_insert_eq. intros [= <-]. now destruct (match _ with Some _ => _ | None => _ end).
  - rewrite lookup_insert_ne by exact Hk. apply Hne.
Qed.

Lemma record_chain_edges parents : forall ps hierarchy hierarchy',
  record_chain ps parents hierarchy = Ok hierarchy' ->
  (forall k c, has_edge hierarchy k c -> has_edge hierarchy' k c)
  /\ (forall i a b, In i ps -> parents !! i = Some a -> parents !! (i - 1)%nat = Some b ->
                    has_edge hierarchy' (suffix a) (suffix b))
  /\ (forall k c, has_edge hierarchy' k c ->
                  has_edge hierarchy k c
                  \/ exists i a b, In i ps /\ parents !! i = Some a
                                   /\ parents !! (i - 1)%nat = Some b
                                   /\ k = suffix a /\ c = suffix b)
  /\ ((forall k l, hierarchy !! k = Some l -> l <> []) ->
      forall k l, hierarchy' !! k = Some l -> l <> []).
Proof.
  induction ps as [|p ps IH]; intros hierarchy hierarchy'; cbn [record_chain].
  - intros [= <-]. repeat split; auto. intros i a b [].
  - unfold index, bind.
    destruct (parents !! p) as [parent|] eqn:Hp; [|discriminate].
    destruct (parents !! (p - 1)%nat) as [child|] eqn:Hc; [|discriminate].
    intros H. destruct (IH _ _ H) as (Hkeep & Hnew & Hinv & Hne).
    split; [|split; [|split]].
    + intros k c Hkc. now apply Hkeep, record_edge_keeps.
    + intros i a b [<-|Hi] Ha Hb.
      * rewrite Hp in Ha. rewrite Hc in Hb. injection Ha as <-. injection Hb as <-.
        apply Hkeep, record_edge_new.
      * now apply (Hnew i).
    + intros k c Hkc. destruct (Hinv k c Hkc) as [Hold|(i & a & b & Hi & Ha & Hb & Hk)].
      * destruct (record_edge_inv _ _ _ _ _ Hold) as [Hold'|[-> ->]]; [now left|].
        right. exists p, parent, child. repeat split; auto. now left.
      * right. exists i, a, b. repeat split; tauto || (now right).
    + intros Hh. apply Hne. now apply record_edge_nonempty.
Qed.

Lemma chain_first frames t e c :
  chain frames t e [] = Ok c -> exists rest, c = e :: rest.
Proof. intros H. destruct (chain_Ok _ _ _ _ _ H) as (rest & -> & _). eauto. Qed.

Lemma record_leaves_edges frames t : forall ls hierarchy hierarchy',
  record_leaves frames t ls hierarchy = Ok hierarchy' ->
  (forall k c, has_edge hierarchy k c -> has_edge hierarchy' k c)
  /\ (forall e, In e ls ->
        exists chn, chain frames t e [] = Ok chn
          /\ forall i child parent, chn !! i = Some child -> chn !! S i = Some parent ->
                                    has_edge hierarchy' (suffix parent) (suffix child))
  /\ (forall k c, has_edge hierarchy' k c ->
        has_edge hierarchy k c
        \/ exists e chn i child parent,
             In e ls /\ chain frames t e [] = Ok chn
             /\ chn !! i = Some child /\ chn !! S i = Some parent
             /\ k = suffix parent /\ c = suffix child)
  /\ ((forall k l, hierarchy !! k = Some l -> l <> []) ->
      forall k l, hierarchy' !! k = Some l -> l <> []).
Proof.
  induction ls as [|e ls IH]; intros hierarchy hierarchy'; cbn [record_leaves].
  - intros [= <-]. repeat split; auto. intros e [].
  - unfold bind. destruct (chain frames t e []) as [chn|] eqn:Hc; [|discriminate].
    destruct (record_chain _ chn hierarchy) as [h1|] eqn:Hrec; [|discriminate].
    intros H. destruct (IH _ _ H) as (Hkeep & Hnew & Hinv & Hne).
    destruct (record_chain_edges _ _ _ _ Hrec) as (Hkeep1 & Hnew1 & Hinv1 & Hne1).
    split; [|split; [|split]].
    + auto.
    + intros e' [<-|He'].
      * exists chn. split; [exact Hc|]. intros i child parent Hchild Hparent.
        apply Hkeep. apply (Hnew1 (S i)).
        -- apply range_down_spec. apply lookup_lt_Some in Hparent. lia.
        -- exact Hparent.
        -- now replace (S i - 1)%nat with i by lia.
      * now apply Hnew.
    + intros k c Hkc.
      destruct (Hinv k c Hkc) as [Hold|(e' & chn' & i & child & parent & He' & Hrest)].
      * destruct (Hinv1 k c Hold) as [Hold'|(i & a & b & Hi & Ha & Hb & -> & ->)];
          [now left|].
        right. apply range_down_spec in Hi. destruct i as [|i]; [lia|].
        replace (S i - 1)%nat with i in Hb by lia.
        exists e, chn, i, b, a. repeat split; auto. now left.
      * right. exists e', chn', i, child, parent. split; [now right | exact Hrest].
    + intros Hh. now apply Hne, Hne1.
Qed.

Lemma list_set_elem children c : c ∈ list_set children <-> c ∈ children.
Proof. unfold list_set. now rewrite elem_of_elements, elem_of_list_to_set. Qed.

Lemma has_edge_list_set hierarchy k c :
  has_edge (list_set <$> hierarchy) k c <-> has_edge hierarchy k c.
Proof.
  unfold has_edge. split.
  - intros (l & Hl & Hin). rewrite lookup_fmap in Hl.
    destruct (hierarchy !! k) as [l'|]; [|discriminate]. injection Hl as <-.
    exists l'. split; [reflexivity|]. now apply list_set_elem.
  - intros (l & Hl & Hin). exists (list_set l). rewrite lookup_fmap, Hl.
    split; [reflexivity|]. now apply list_set_elem.
Qed.

(** X4: every list of children in the map get_hierarchy returns is without
    repetition and not empty. *)
Theorem get_hierarchy_children_lists (self : AutoLoad) (frames : nat)
    (hierarchy : gmap Z (list Z)) (k : Z) (children : list Z) :
  fst (get_hierarchy frames self) = Ok hierarchy ->
  hierarchy !! k = Some children ->
  NoDup children /\ children <> [].
Proof.
  rewrite get_hierarchy_run. cbn [fst]. unfold hierarchy_of, bind.
  destruct (record_leaves _ _ _ _) as [h|] eqn:Hrec; [|discriminate].
  intros [= <-]. rewrite lookup_fmap.
  destruct (h !! k) as [l|] eqn:Hl; [|discriminate]. intros [= <-].
  split; [unfold list_set; apply NoDup_elements|].
  destruct (record_leaves_edges _ _ _ _ _ Hrec) as (_ & _ & _ & Hne).
  assert (Hl' : l <> []).
  { apply (Hne ltac:(intros k' l'; rewrite lookup_empty; discriminate) k l Hl). }
  destruct l as [|a l]; [congruence|].
  intros Hnil. assert (Ha : a ∈ list_set (a :: l)).
  { apply list_set_elem. now left. }
  rewrite Hnil in Ha. now apply elem_of_nil in Ha.
Qed.

Lemma get_hierarchy_children_lists_witness :
  NoDup [7; 5; 3] /\ [7; 5; 3] <> [].
Proof.
  apply (get_hierarchy_children_lists (init (device slotted_table [] [])) 6
           (list_to_map [(1, [7; 5; 3]); (3, [6])]) 1 [7; 5; 3]).
  - vm_compute. reflexivity.
  - reflexivity.
Defined.

Lemma setitem_fresh {R} (d : table R) k v :
  ~ In k (keys d) -> setitem d k v = (d ++ [(k, v)])%list.
Proof.
  induction d as [|[k' r] d IH]; cbn [setitem keys map fst In app]; [reflexivity|].
  intros Hn. rewrite bool_decide_eq_false_2 by tauto.
  f_equal. apply IH. unfold keys. tauto.
Qed.

Lemma dict_distinct {R} (pairs : list (Z * R)) :
  List.NoDup (map fst pairs) -> dict pairs = pairs.
Proof.
  unfold dict.
  assert (H : forall d, List.NoDup (map fst (d ++ pairs)) ->
                        fold_left (fun d kv => setitem d (fst kv) (snd kv)) pairs d
                        = (d ++ pairs)%list).
  { induction pairs as [|[k v] pairs IH]; intros d Hnd; cbn [fold_left fst snd].
    - now rewrite app_nil_r.
    - assert (Hd : (d ++ (k, v) :: pairs = (d ++ [(k, v)]) ++ pairs)%list)
        by now rewrite <- app_assoc.
      rewrite setitem_fresh.
      + rewrite IH; [now rewrite <- app_assoc | now rewrite <- Hd].
      + rewrite map_app in Hnd. cbn [map fst] in Hnd.
        apply List.NoDup_remove_2 in Hnd. intros Hin. apply Hnd.
        apply in_or_app. now left. }
  intros Hnd. now apply (H []).
Qed.

Lemma filter_keys_NoDup {R} (f : Z * R -> bool) (t : table R) :
  List.NoDup (map fst t) -> List.NoDup (map fst (List.filter f t)).
Proof.
  induction t as [|kv t IH]; cbn [List.filter map]; [trivial|].
  intros Hnd. inversion Hnd as [|? ? Hn Hnd']; subst.
  destruct (f kv); [|now apply IH]. cbn [map]. constructor; [|now apply IH].
  intros Hin. apply Hn. apply in_map_iff in Hin as (kv' & Heq & Hkv').
  apply filter_In in Hkv' as [Hkv' _]. apply in_map_iff. eauto.
Qed.

Lemma NoDup_keys_unique {R} (t : table R) k r r' :
  List.NoDup (map fst t) -> In (k, r) t -> In (k, r') t -> r = r'.
Proof.
  induction t as [|[k0 r0] t IH]; [intros _ []|].
  cbn [map fst]. intros Hnd. inversion Hnd as [|? ? Hn Hnd']; subst.
  intros [Heq|H1] [Heq'|H2].
  - congruence.
  - exfalso. apply Hn. apply in_map_iff. exists (k, r'). split; [|exact H2].
    cbn. congruence.
  - exfalso. apply Hn. apply in_map_iff. exists (k, r). split; [|exact H1].
    cbn. congruence.
  - now apply IH.
Qed.

Lemma leaves_distinct t :
  List.NoDup (keys t) ->
  leaves t = values (filter_by_column "Class" "'port'" t
                     ++ filter_by_column "Class" "'powerSupply'" t)%list.
Proof.
  intros Hnd. unfold leaves, items. f_equal. apply dict_distinct.
  rewrite map_app.
  apply List.NoDup_app; [now apply filter_keys_NoDup | now apply filter_keys_NoDup |].
  intros k Hp Hs.
  apply in_map_iff in Hp as ([k1 e1] & <- & Hp). apply in_map_iff in Hs as ([k2 e2] & Hk & Hs).
  cbn [fst] in Hk. subst k2.
  unfold filter_by_column in Hp, Hs.
  apply filter_In in Hp as [Hp Hcp]. apply filter_In in Hs as [Hs Hcs].
  rewrite (NoDup_keys_unique _ _ _ _ Hnd Hs Hp) in Hcs.
  apply bool_decide_eq_true_1 in Hcp. apply bool_decide_eq_true_1 in Hcs.
  cbn in Hcp, Hcs. congruence.
Qed.

Lemma leaves_class t e :
  In e (leaves t) ->
  entPhysicalClass e = "'port'" \/ entPhysicalClass e = "'powerSupply'".
Proof.
  unfold leaves, items, filter_by_column. intros H. apply dict_values in H.
  rewrite map_app, in_app_iff in H.
  destruct H as [H|H]; apply in_map_iff in H as (kv & <- & Hkv);
    apply filter_In in Hkv as [_ Hc]; apply bool_decide_eq_true_1 in Hc;
    cbn in Hc; injection Hc as Hc; auto.
Qed.

Lemma leaves_complete t k e :
  List.NoDup (keys t) -> table_get t k = Some e ->
  entPhysicalClass e = "'port'" \/ entPhysicalClass e = "'powerSupply'" ->
  In e (leaves t).
Proof.
  intros Hnd Hget Hclass. rewrite (leaves_distinct _ Hnd). unfold values.
  apply in_map_iff. exists (k, e). split; [reflexivity|].
  apply table_get_In in Hget. apply in_or_app. unfold filter_by_column.
  destruct Hclass as [Hc|Hc]; [left | right]; apply filter_In; split; trivial;
    apply bool_decide_eq_true_2; unfold column; cbn [snd];
    rewrite bool_decide_eq_true_2 by reflexivity; congruence.
Qed.

(** X5: when get_hierarchy returns a map, no port and no power supply of a
    table with distinct indices is left out: get_parents returns its chain,
    and every element of the chain is recorded as a child of the element
    that follows it. *)
Theorem get_hierarchy_complete (self : AutoLoad) (frames : nat)
    (hierarchy : gmap Z (list Z)) (k : Z) (e : entity) :
  List.NoDup (keys (the_table self)) ->
  fst (get_hierarchy frames self) = Ok hierarchy ->
  table_get (the_table self) k = Some e ->
  entPhysicalClass e = "'port'" \/ entPhysicalClass e = "'powerSupply'" ->
  exists chn, fst (get_parents frames e [] self) = Ok chn
    /\ forall i child parent, chn !! i = Some child -> chn !! S i = Some parent ->
                              has_edge hierarchy (suffix parent) (suffix child).
Proof.
  intros Hnd Hh Hget Hclass. rewrite get_hierarchy_run in Hh. cbn [fst] in Hh.
  unfold hierarchy_of, bind in Hh.
  destruct (record_leaves _ _ _ _) as [h|] eqn:Hrec; [|discriminate].
  injection Hh as <-. rewrite get_parents_fst.
  destruct (record_leaves_edges _ _ _ _ _ Hrec) as (_ & Hnew & _).
  destruct (Hnew e (leaves_complete _ _ _ Hnd Hget Hclass)) as (chn & Hc & Hedges).
  exists chn. split; [exact Hc|]. intros i child parent Hchild Hparent.
  apply has_edge_list_set. now apply (Hedges i).
Qed.

Lemma get_hierarchy_complete_witness :
  exists chn, fst (get_parents 6 direct_port [] (init (device slotted_table [] []))) = Ok chn
    /\ forall i child parent, chn !! i = Some child -> chn !! S i = Some parent ->
         has_edge (list_to_map [(1, [7; 5; 3]); (3, [6])]) (suffix parent) (suffix child).
Proof.
  apply (get_hierarchy_complete (init (device slotted_table [] [])) 6 _ 6 direct_port).
  - cbn. repeat constructor; cbn; intuition discriminate.
  - vm_compute. reflexivity.
  - reflexivity.
  - left. reflexivity.
Defined.

Lemma chain_inner frames t e chn i x :
  chain frames t e [] = Ok chn -> chn !! S i = Some x ->
  (S i + 1 < length chn)%nat ->
  parent_row t x /\ entPhysicalClass x = "'module'".
Proof.
  intros Hc Hx Hi.
  destruct (chain_Ok _ _ _ _ _ Hc) as (rest & Heq & Hrows & _).
  destruct (chain_levels _ _ _ _ _ Hc) as (rest' & Heq' & Hnot).
  cbn [app] in Heq, Heq'. subst chn. injection Heq' as <-.
  assert (Hrow : parent_row t x).
  { cbn in Hx. rewrite Forall_forall in Hrows. apply Hrows.
    eapply list_elem_of_lookup_2; eauto. }
  split; [exact Hrow|]. destruct Hrow as [_ [Hm|Hch]]; [exact Hm|].
  exfalso. rewrite Forall_forall in Hnot. apply (Hnot x); [|exact Hch].
  apply (list_elem_of_lookup_2 _ (S i)). apply removelast_lookup; assumption.
Qed.

Lemma values_In {R} (t : table R) r : In r (values t) -> exists k, In (k, r) t.
Proof.
  unfold values. intros H. apply in_map_iff in H as ([k r'] & Heq & Hin).
  cbn in Heq. subst. eauto.
Qed.

Lemma index_consistent_In t k e :
  index_consistent t = true -> In (k, e) t -> suffix e = k.
Proof.
  intros Hidx Hin. unfold index_consistent in Hidx. rewrite forallb_forall in Hidx.
  apply Hidx in Hin. now apply bool_decide_eq_true_1 in Hin.
Qed.

(** X6: in a table whose rows are stored under their own index, every child
    in the map get_hierarchy returns is the index of a row of class port,
    powerSupply or module; a chassis is never a child. *)
Theorem get_hierarchy_children (self : AutoLoad) (frames : nat)
    (hierarchy : gmap Z (list Z)) (k child : Z) (children : list Z) :
  index_consistent (the_table self) = true ->
  fst (get_hierarchy frames self) = Ok hierarchy ->
  hierarchy !! k = Some children -> child ∈ children ->
  exists x, In (child, x) (the_table self)
    /\ (entPhysicalClass x = "'port'" \/ entPhysicalClass x = "'powerSupply'"
        \/ entPhysicalClass x = "'module'").
Proof.
  intros Hidx Hh Hk Hchild. rewrite get_hierarchy_run in Hh. cbn [fst] in Hh.
  unfold hierarchy_of, bind in Hh.
  destruct (record_leaves _ _ _ _) as [h|] eqn:Hrec; [|discriminate].
  injection Hh as <-.
  assert (Hedge : has_edge h k child).
  { apply has_edge_list_set. exists children. auto. }
  destruct (record_leaves_edges _ _ _ _ _ Hrec) as (_ & _ & Hinv & _).
  destruct (Hinv k child Hedge)
    as [(l & Hl & _)|(e & chn & i & c & parent & He & Hc & Hci & Hpi & _ & ->)].
  { rewrite lookup_empty in Hl. discriminate. }
  destruct i as [|i].
  - destruct (chain_first _ _ _ _ Hc) as [rest ->]. cbn in Hci. injection Hci as <-.
    destruct (values_In _ _ (leaves_rows _ _ He)) as [j Hj].
    exists e. rewrite (index_consistent_In _ _ _ Hidx Hj). split; [exact Hj|].
    destruct (leaves_class _ _ He); auto.
  - apply lookup_lt_Some in Hpi.
    destruct (chain_inner _ _ _ _ _ _ Hc Hci ltac:(lia)) as [[[j Hj] _] Hm].
    apply table_get_In in Hj.
    exists c. rewrite (index_consistent_In _ _ _ Hidx Hj). auto.
Qed.

Lemma get_hierarchy_children_witness :
  exists x, In (5, x) slotted_table
    /\ (entPhysicalClass x = "'port'" \/ entPhysicalClass x = "'powerSupply'"
        \/ entPhysicalClass x = "'module'").
Proof.
  apply (get_hierarchy_children (init (device slotted_table [] [])) 6
           (list_to_map [(1, [7; 5; 3]); (3, [6])]) 1 5 [7; 5; 3]).
  - reflexivity.
  - vm_compute. reflexivity.
  - reflexivity.
  - apply elem_of_cons. right. apply elem_of_cons. now left.
Defined.

Lemma filter_by_column_none name value t :
  (forall k e, In (k, e) t -> column name e <> Some value) ->
  filter_by_column name value t = [].
Proof.
  unfold filter_by_column. induction t as [|[k e] t IH]; intros Hnone; [reflexivity|].
  cbn [List.filter snd]. rewrite bool_decide_eq_false_2.
  - apply IH. intros k' e' Hin. apply (Hnone k'). now right.
  - apply (Hnone k). now left.
Qed.

(** X7: get_hierarchy follows the chains of ports and power supplies only:
    over a table without either it returns the empty map, whatever the
    other rows are and even with no stack left for a recursion. *)
Theorem get_hierarchy_no_leaves (self : AutoLoad) (frames : nat) :
  (forall k e, In (k, e) (the_table self) ->
     entPhysicalClass e <> "'port'" /\ entPhysicalClass e <> "'powerSupply'") ->
  get_hierarchy frames self = (Ok ∅, load self).
Proof.
  intros Hnone. rewrite get_hierarchy_run. f_equal.
  unfold hierarchy_of, leaves.
  rewrite !filter_by_column_none.
  - cbn. now rewrite fmap_empty.
  - intros k e Hin. unfold column. rewrite bool_decide_eq_true_2 by reflexivity.
    intros [= Hc]. destruct (Hnone k e Hin); congruence.
  - intros k e Hin. unfold column. rewrite bool_decide_eq_true_2 by reflexivity.
    intros [= Hc]. destruct (Hnone k e Hin); congruence.
Qed.

Lemma get_hierarchy_no_leaves_witness :
  get_hierarchy 0 (init (device cyclic_table [] []))
  = (Ok ∅, load (init (device cyclic_table [] []))).
Proof.
  apply (get_hierarchy_no_leaves (init (device cyclic_table [] [])) 0).
  intros k e [[= <- <-]|[[= <- <-]|[]]]; split; discriminate.
Defined.

(** ** Sessions *)

Lemma same_tables_refl self : same_tables self self.
Proof. unfold same_tables. auto. Qed.

Lemma same_tables_trans s1 s2 s3 :
  same_tables s1 s2 -> same_tables s2 s3 -> same_tables s1 s3.
Proof.
  unfold same_tables. intros (H1 & H2 & H3 & H4 & H5) (K1 & K2 & K3 & K4 & K5).
  repeat split; try congruence; auto.
Qed.

Lemma same_tables_load self : same_tables self (load self).
Proof.
  unfold same_tables. rewrite the_table_load, the_ifTable_load, load_cached.
  repeat split; eauto.
  - unfold load, entPhysicalTable. destruct (_entPhysicalTable self); reflexivity.
  - unfold load, entPhysicalTable. destruct (_entPhysicalTable self); trivial.
Qed.

Lemma same_tables_load_if self : same_tables self (load_if self).
Proof.
  unfold same_tables. rewrite load_if_table, the_ifTable_load_if, load_if_cached.
  repeat split; eauto.
  - unfold load_if, ifTable. destruct (_ifTable self); reflexivity.
  - unfold load_if, ifTable. destruct (_ifTable self); trivial.
Qed.

Lemma same_tables_walk {R} name (select : QualiSnmp -> table R) self :
  same_tables self (snd (walk name select self)).
Proof. unfold same_tables. cbn. auto. Qed.

Lemma get_mapping_state self :
  let walked_self := snd (walk ("ENTITY-MIB", "entAliasMappingTable")
                               device_entAliasMappingTable self) in
  match device_entAliasMappingTable (snmp self) with
  | _ :: _ => snd (get_mapping self) = load walked_self
  | [] => snd (get_mapping self) = load walked_self
          \/ snd (get_mapping self) = load_if (load walked_self)
  end.
Proof.
  intros s0.
  assert (Hrun : get_mapping self
                 = match device_entAliasMappingTable (snmp self) with
                   | a :: aliases =>
                       (alias_ports (a :: aliases) (keys (ports_of (the_table self))) [],
                        load s0)
                   | [] => _descr_based_mapping s0
                   end).
  { unfold get_mapping. unfold bindM at 1. cbn [walk]. fold s0.
    destruct (device_entAliasMappingTable (snmp self)) as [|a aliases]; [reflexivity|].
    unfold bindM at 1. rewrite entPhysicalTable_run, alias_loop_run. reflexivity. }
  rewrite Hrun. destruct (device_entAliasMappingTable (snmp self)) as [|a aliases].
  - apply _descr_based_mapping_state.
  - reflexivity.
Qed.

Lemma same_tables_perform frames c self : same_tables self (perform frames c self).
Proof.
  destruct c as [| | | | |e|e]; cbn [perform].
  - apply same_tables_load.
  - apply same_tables_load_if.
  - rewrite get_hierarchy_run. apply same_tables_load.
  - pose proof (get_mapping_state self) as Hs. cbv zeta in Hs.
    pose proof (same_tables_walk ("ENTITY-MIB", "entAliasMappingTable")
                  device_entAliasMappingTable self) as Hw.
    destruct (device_entAliasMappingTable (snmp self)); [destruct Hs as [Hs|Hs]|];
      rewrite Hs.
    + eapply same_tables_trans; [exact Hw | apply same_tables_load].
    + eapply same_tables_trans; [exact Hw|].
      eapply same_tables_trans; [apply same_tables_load | apply same_tables_load_if].
    + eapply same_tables_trans; [exact Hw | apply same_tables_load].
  - destruct (_descr_based_mapping_state self) as [->| ->].
    + apply same_tables_load.
    + eapply same_tables_trans; [apply same_tables_load | apply same_tables_load_if].
  - destruct (get_parent_run frames e self) as (s' & -> & [->| ->]); cbn [snd];
      [apply same_tables_refl | apply same_tables_load].
  - destruct (get_parents_run frames e [] self) as (s' & -> & [->| ->]); cbn [snd];
      [apply same_tables_refl | apply same_tables_load].
Qed.

Lemma same_tables_session frames : forall calls self,
  same_tables self (session frames calls self).
Proof.
  unfold session. induction calls as [|c calls IH]; intros self; cbn [fold_left].
  - apply same_tables_refl.
  - eapply same_tables_trans; [apply same_tables_perform | apply IH].
Qed.

(** X8: no call replaces or drops a table: after any sequence of calls the
    object reads the entPhysicalTable and the ifTable it read before, a
    cache that was filled is still filled with the same table, and the
    device's alias table is as it was. *)
Theorem session_keeps_tables (frames : nat) (calls : list call) (self : AutoLoad) :
  the_table (session frames calls self) = the_table self
  /\ the_ifTable (session frames calls self) = the_ifTable self
  /\ device_entAliasMappingTable (snmp (session frames calls self))
     = device_entAliasMappingTable (snmp self)
  /\ (forall t, _entPhysicalTable self = Some t ->
                _entPhysicalTable (session frames calls self) = Some t)
  /\ (forall t, _ifTable self = Some t ->
                _ifTable (session frames calls self) = Some t).
Proof.
  destruct (same_tables_session frames calls self) as (Ht & Hi & Ha & Hct & Hci).
  split; [exact Ht|]. split; [exact Hi|]. split; [exact Ha|]. split.
  - intros t Hc. destruct (Hct ltac:(eauto)) as [t' Ht'].
    unfold the_table in Ht. rewrite Hc, Ht' in Ht. congruence.
  - intros t Hc. destruct (Hci ltac:(eauto)) as [t' Ht'].
    unfold the_ifTable in Hi. rewrite Hc, Ht' in Hi. congruence.
Qed.

(** X9: what a method returns or raises does not depend on the calls made
    before it on the same object: get_hierarchy, get_mapping,
    _descr_based_mapping, get_parents and get_parent have, after any
    sequence of calls, the outcome they have on the object as it was. *)
Theorem outcome_after_session (frames : nat) (calls : list call) (self : AutoLoad)
    (stack : nat) (e : entity) (parents : list entity) :
  let self' := session frames calls self in
  fst (get_hierarchy stack self') = fst (get_hierarchy stack self)
  /\ fst (get_mapping self') = fst (get_mapping self)
  /\ fst (_descr_based_mapping self') = fst (_descr_based_mapping self)
  /\ fst (get_parents stack e parents self') = fst (get_parents stack e parents self)
  /\ fst (get_parent stack e self') = fst (get_parent stack e self).
Proof.
  intros self'.
  destruct (same_tables_session frames calls self) as (Ht & Hi & Ha & _).
  fold self' in Ht, Hi, Ha.
  rewrite !get_hierarchy_run, !get_mapping_fst, !_descr_based_mapping_fst,
    !get_parents_fst, !get_parent_fst. cbn [fst].
  rewrite Ht, Hi, Ha. repeat split.
Qed.

(** ** get_mapping *)

Lemma setitem_keys_present {R} (d : table R) k v :
  In k (keys d) -> keys (setitem d k v) = keys d.
Proof.
  induction d as [|[k0 r] d IH]; cbn [setitem keys map fst In]; [intros []|].
  case_bool_decide as Hk; [reflexivity|].
  intros [Heq|Hin]; [contradiction|]. cbn [map fst]. f_equal. now apply IH.
Qed.

Lemma setitem_keys_fresh {R} (d : table R) k v :
  ~ In k (keys d) -> keys (setitem d k v) = (keys d ++ [k])%list.
Proof.
  intros Hn. rewrite (setitem_fresh _ _ _ Hn). unfold keys. now rewrite map_app.
Qed.

Lemma alias_ports_returns aliases : forall ports mapping,
  List.NoDup (keys mapping ++ ports) ->
  (forall k, In k ports ->
     exists r i, table_get aliases k = Some r /\ alias_index r = Ok i) ->
  exists mapping', alias_ports aliases ports mapping = Ok mapping'
    /\ keys mapping' = (keys mapping ++ ports)%list
    /\ (forall k, ~ In k ports -> table_get mapping' k = table_get mapping k)
    /\ forall k, In k ports ->
         exists r i, table_get aliases k = Some r /\ alias_index r = Ok i
                     /\ table_get mapping' k = Some i.
Proof.
  induction ports as [|port ports IH]; intros mapping Hnd Hrows; cbn [alias_ports].
  - exists mapping. rewrite app_nil_r. repeat split; auto. intros k [].
  - destruct (Hrows port ltac:(now left)) as (r & i & Hr & Hi).
    unfold getitem. rewrite Hr. unfold bind at 1.
    pose proof Hi as Hindex. unfold alias_index, bind in Hi.
    destruct (last_item (split_dot (entAliasMappingIdentifier r))) as [component|];
      [|discriminate].
    unfold bind at 1. rewrite Hi. unfold bind.
    assert (Hfresh : ~ In port (keys mapping)).
    { intros Hin. apply List.NoDup_remove_2 in Hnd. apply Hnd.
      apply in_or_app. now left. }
    assert (Hnot : ~ In port ports).
    { intros Hin. apply List.NoDup_remove_2 in Hnd. apply Hnd.
      apply in_or_app. now right. }
    destruct (IH (setitem mapping port i)) as (mapping' & -> & Hkeys & Hold & Hnew).
    { rewrite (setitem_keys_fresh _ _ _ Hfresh), <- app_assoc. exact Hnd. }
    { intros k Hk. apply Hrows. now right. }
    exists mapping'. split; [reflexivity|]. split; [|split].
    + rewrite Hkeys, (setitem_keys_fresh _ _ _ Hfresh), <- app_assoc. reflexivity.
    + intros k Hk. rewrite (Hold k) by (intros Hin; apply Hk; now right).
      apply table_get_setitem_ne. intros ->. apply Hk. now left.
    + intros k [<-|Hk]; [|now apply Hnew].
      exists r, i. split; [exact Hr|]. split; [exact Hindex|].
      rewrite (Hold port Hnot). apply table_get_setitem.
Qed.

(** X10: with an alias table that has, for every port of a table with
    distinct indices, a row whose identifier ends in an integer,
    get_mapping returns a mapping that lists the ports in the order of the
    table and gives each the integer its alias row ends with. *)
Theorem get_mapping_alias (self : AutoLoad) :
  device_entAliasMappingTable (snmp self) <> [] ->
  List.NoDup (keys (the_table self)) ->
  (forall k, In k (keys (ports_of (the_table self))) ->
     exists r i, table_get (device_entAliasMappingTable (snmp self)) k = Some r
                 /\ alias_index r = Ok i) ->
  exists mapping, fst (get_mapping self) = Ok mapping
    /\ keys mapping = keys (ports_of (the_table self))
    /\ forall k, In k (keys (ports_of (the_table self))) ->
         exists r i, table_get (device_entAliasMappingTable (snmp self)) k = Some r
                     /\ alias_index r = Ok i /\ table_get mapping k = Some i.
Proof.
  intros Hne Hnd Hrows. rewrite get_mapping_fst. unfold mapping_of.
  destruct (device_entAliasMappingTable (snmp self)) as [|a aliases]; [congruence|].
  destruct (alias_ports_returns (a :: aliases) (keys (ports_of (the_table self))) [])
    as (mapping & -> & Hkeys & _ & Hvalues).
  - cbn [keys map app]. now apply filter_keys_NoDup.
  - exact Hrows.
  - exists mapping. auto.
Qed.

Lemma get_mapping_alias_witness :
  exists mapping, fst (get_mapping (init aliased_snmp)) = Ok mapping
    /\ keys mapping = [3; 4]
    /\ forall k, In k [3; 4] ->
         exists r i, table_get (device_entAliasMappingTable aliased_snmp) k = Some r
                     /\ alias_index r = Ok i /\ table_get mapping k = Some i.
Proof.
  apply (get_mapping_alias (init aliased_snmp)).
  - discriminate.
  - cbn. repeat constructor; cbn; intuition discriminate.
  - intros k [<-|[<-|[]]]; eexists; eexists; split; reflexivity.
Defined.

Lemma match_interfaces_keys_present ifTable_re k interfaces : forall mapping,
  In k (keys mapping) ->
  keys (match_interfaces ifTable_re k interfaces mapping) = keys mapping.
Proof.
  unfold match_interfaces.
  induction interfaces as [|i interfaces IH]; intros mapping Hin; cbn [fold_left];
    [reflexivity|].
  destruct (re_search ifTable_re (ifDescr i)); [|now apply IH].
  rewrite IH; [now apply setitem_keys_present|].
  now rewrite setitem_keys_present.
Qed.

Lemma match_interfaces_keys_fresh ifTable_re k interfaces : forall mapping,
  ~ In k (keys mapping) ->
  keys (match_interfaces ifTable_re k interfaces mapping)
  = if existsb (fun i => re_search ifTable_re (ifDescr i)) interfaces
    then (keys mapping ++ [k])%list else keys mapping.
Proof.
  induction interfaces as [|i interfaces IH]; intros mapping Hn; [reflexivity|].
  cbn [existsb]. unfold match_interfaces. cbn [fold_left].
  destruct (re_search ifTable_re (ifDescr i)); cbn [orb].
  - change (fold_left _ interfaces ?m) with (match_interfaces ifTable_re k interfaces m).
    rewrite match_interfaces_keys_present.
    + now apply setitem_keys_fresh.
    + rewrite (setitem_keys_fresh _ _ _ Hn). apply in_or_app. right. now left.
  - now apply IH.
Qed.

Lemma has_interface_tokens interfaces port a b :
  findall_digits (entPhysicalDescr port) = [a; b] ->
  has_interface interfaces port
  = existsb (fun i => re_search (".*" ++ a ++ "/" ++ b) (ifDescr i)) interfaces.
Proof. intros H. unfold has_interface, satisfies. now rewrite H. Qed.

Lemma descr_ports_result interfaces : forall ports mapping,
  List.NoDup (keys mapping ++ map suffix ports) ->
  (forall port, In port ports ->
                length (findall_digits (entPhysicalDescr port)) = 2%nat) ->
  exists mapping', descr_ports ports interfaces mapping = Ok mapping'
    /\ keys mapping'
       = (keys mapping ++ map suffix (List.filter (has_interface interfaces) ports))%list
    /\ (forall k, ~ In k (map suffix ports) -> table_get mapping' k = table_get mapping k)
    /\ forall port before i after,
         In port ports -> interfaces = (before ++ i :: after)%list ->
         satisfies port i = true ->
         (forall j, In j after -> satisfies port j = false) ->
         table_get mapping' (suffix port) = Some (if_suffix i).
Proof.
  induction ports as [|port ports IH]; intros mapping Hnd Htwo; cbn [descr_ports].
  - exists mapping. cbn. rewrite app_nil_r. repeat split; auto.
    intros port before i after [].
  - destruct (unpack2_two _ (Htwo port ltac:(now left))) as (a & b & Htokens & ->).
    unfold bind. cbn [fst snd map] in *.
    assert (Hfresh : ~ In (suffix port) (keys mapping)).
    { intros Hin. apply List.NoDup_remove_2 in Hnd. apply Hnd.
      apply in_or_app. now left. }
    assert (Hnot : ~ In (suffix port) (map suffix ports)).
    { intros Hin. apply List.NoDup_remove_2 in Hnd. apply Hnd.
      apply in_or_app. now right. }
    set (m1 := match_interfaces (".*" ++ a ++ "/" ++ b) (suffix port) interfaces mapping).
    assert (Hk1 : keys m1 = if has_interface interfaces port
                            then (keys mapping ++ [suffix port])%list else keys mapping).
    { rewrite (has_interface_tokens _ _ _ _ Htokens).
      now apply match_interfaces_keys_fresh. }
    destruct (IH m1) as (mapping' & -> & Hkeys & Hold & Hlast).
    { rewrite Hk1. destruct (has_interface interfaces port).
      - now rewrite <- app_assoc.
      - now apply List.NoDup_remove_1 in Hnd. }
    { intros p Hp. apply Htwo. now right. }
    exists mapping'. split; [reflexivity|]. split; [|split].
    + rewrite Hkeys, Hk1. cbn [List.filter].
      destruct (has_interface interfaces port); cbn [map]; [|reflexivity].
      now rewrite <- app_assoc.
    + intros k Hk. rewrite Hold by (intros Hin; apply Hk; now right).
      apply match_interfaces_other. intros Heq. apply Hk. now left.
    + intros p before i after [<-|Hp] Hifs Hi Hafter.
      * rewrite (Hold _ Hnot). unfold m1. rewrite Hifs.
        rewrite (satisfies_tokens _ _ _ _ Htokens) in Hi.
        apply match_interfaces_last; [exact Hi|].
        intros j Hj. rewrite <- (satisfies_tokens _ _ _ _ Htokens). now apply Hafter.
      * now apply (Hlast p before i after).
Qed.

(** X11: without an alias table, when the ports have distinct indices and
    two runs of digits each in their description, the mapping that
    _descr_based_mapping returns lists the ports that have a satisfying
    interface, in the order of the table. *)
Theorem descr_mapping_order (self : AutoLoad) :
  List.NoDup (map suffix (values (ports_of (the_table self)))) ->
  (forall port, In port (values (ports_of (the_table self))) ->
                length (findall_digits (entPhysicalDescr port)) = 2%nat) ->
  exists mapping, fst (_descr_based_mapping self) = Ok mapping
    /\ keys mapping
       = map suffix (List.filter (has_interface (values (the_ifTable self)))
                                 (values (ports_of (the_table self)))).
Proof.
  intros Hnd Htwo. rewrite _descr_based_mapping_fst.
  destruct (descr_ports_result (values (the_ifTable self)) _ [] Hnd Htwo)
    as (mapping & -> & Hkeys & _).
  exists mapping. auto.
Qed.

Lemma descr_mapping_order_witness :
  exists mapping, fst (_descr_based_mapping (init three_port_snmp)) = Ok mapping
    /\ keys mapping = [3; 5].
Proof.
  apply (descr_mapping_order (init three_port_snmp)).
  - vm_compute. repeat constructor; cbn; intuition discriminate.
  - intros port [<-|[<-|[<-|[]]]]; reflexivity.
Defined.

(** X12: under the same conditions, the interface recorded for a port is
    the last interface of the table that satisfies the port's match
    expression. *)
Theorem descr_mapping_last_match (self : AutoLoad) (port : entity)
    (before after : list interface) (i : interface) :
  List.NoDup (map suffix (values (ports_of (the_table self)))) ->
  (forall port, In port (values (ports_of (the_table self))) ->
                length (findall_digits (entPhysicalDescr port)) = 2%nat) ->
  In port (values (ports_of (the_table self))) ->
  values (the_ifTable self) = (before ++ i :: after)%list ->
  satisfies port i = true ->
  (forall j, In j after -> satisfies port j = false) ->
  exists mapping, fst (_descr_based_mapping self) = Ok mapping
    /\ table_get mapping (suffix port) = Some (if_suffix i).
Proof.
  intros Hnd Htwo Hport Hifs Hi Hafter. rewrite _descr_based_mapping_fst.
  destruct (descr_ports_result (values (the_ifTable self)) _ [] Hnd Htwo)
    as (mapping & -> & _ & _ & Hlast).
  exists mapping. split; [reflexivity|].
  now apply (Hlast port before i after).
Qed.

Lemma descr_mapping_last_match_witness :
  exists mapping, fst (_descr_based_mapping (init three_port_snmp)) = Ok mapping
    /\ table_get mapping 5 = Some 31.
Proof.
  apply (descr_mapping_last_match (init three_port_snmp)
           (snd (row 5 "'port'" 1 "Port 1/3"))
           [snd (if_row 30 "Gi1/3"); snd (if_row 10 "Gi1/1")] []
           (snd (if_row 31 "Te1/3"))).
  - vm_compute. repeat constructor; cbn; intuition discriminate.
  - intros port [<-|[<-|[<-|[]]]]; reflexivity.
  - right. right. left. reflexivity.
  - reflexivity.
  - reflexivity.
  - intros j [].
Defined.

Lemma load_ifTable self :
  _ifTable (load self) = _ifTable self
  /\ fetches ("IF-MIB", "ifTable") (load self) = fetches ("IF-MIB", "ifTable") self.
Proof.
  unfold load, entPhysicalTable, fetches.
  destruct (_entPhysicalTable self); cbn; [split; reflexivity|].
  split; [reflexivity|]. rewrite List.filter_app, List.length_app. cbn.
  rewrite bool_decide_eq_false_2 by discriminate. cbn. lia.
Qed.

Lemma walk_alias_ifTable self :
  let self' := snd (walk ("ENTITY-MIB", "entAliasMappingTable")
                         device_entAliasMappingTable self) in
  _ifTable self' = _ifTable self
  /\ fetches ("IF-MIB", "ifTable") self' = fetches ("IF-MIB", "ifTable") self.
Proof.
  cbn. split; [reflexivity|]. unfold fetches. cbn.
  rewrite List.filter_app, List.length_app. cbn.
  rewrite bool_decide_eq_false_2 by discriminate. cbn. lia.
Qed.

(** X13: with an alias table that is not empty, get_mapping leaves the
    interface table alone: ifTable is neither fetched nor cached by the
    call, and the outcome is the same whatever interface table the object
    reads. *)
Theorem get_mapping_alias_skips_ifTable (self : AutoLoad) :
  device_entAliasMappingTable (snmp self) <> [] ->
  _ifTable (snd (get_mapping self)) = _ifTable self
  /\ fetches ("IF-MIB", "ifTable") (snd (get_mapping self))
     = fetches ("IF-MIB", "ifTable") self
  /\ forall self',
       the_table self' = the_table self ->
       device_entAliasMappingTable (snmp self') = device_entAliasMappingTable (snmp self) ->
       fst (get_mapping self') = fst (get_mapping self).
Proof.
  intros Hne. pose proof (get_mapping_state self) as Hs. cbv zeta in Hs.
  destruct (walk_alias_ifTable self) as [Hc Hf]. cbv zeta in Hc, Hf.
  destruct (device_entAliasMappingTable (snmp self)) as [|a aliases] eqn:Ha;
    [congruence|].
  rewrite Hs. destruct (load_ifTable (snd (walk ("ENTITY-MIB", "entAliasMappingTable")
                                               device_entAliasMappingTable self)))
    as [Hc' Hf'].
  split; [congruence|]. split; [congruence|].
  intros self' Ht Ha'. rewrite !get_mapping_fst, Ha', Ha, Ht. reflexivity.
Qed.

Lemma get_mapping_alias_skips_ifTable_witness :
  _ifTable (snd (get_mapping (init aliased_snmp))) = None
  /\ fetches ("IF-MIB", "ifTable") (snd (get_mapping (init aliased_snmp))) = 0%nat.
Proof.
  destruct (get_mapping_alias_skips_ifTable (init aliased_snmp)) as (Hc & Hf & _).
  - discriminate.
  - split; [exact Hc | exact Hf].
Defined.

Lemma _descr_based_mapping_no_ports self :
  ports_of (the_table self) = [] -> _descr_based_mapping self = (Ok [], load self).
Proof.
  intros Hnone. unfold _descr_based_mapping. unfold bindM at 1.
  rewrite entPhysicalTable_run. fold (ports_of (the_table self)). now rewrite Hnone.
Qed.

(** X14: over a table without ports get_mapping returns the empty mapping,
    with or without an alias table, and does not fetch the interface
    table. *)
Theorem get_mapping_no_ports (self : AutoLoad) :
  (forall k e, In (k, e) (the_table self) -> entPhysicalClass e <> "'port'") ->
  fst (get_mapping self) = Ok []
  /\ _ifTable (snd (get_mapping self)) = _ifTable self
  /\ fetches ("IF-MIB", "ifTable") (snd (get_mapping self))
     = fetches ("IF-MIB", "ifTable") self.
Proof.
  intros Hnone.
  assert (Hports : ports_of (the_table self) = []).
  { apply filter_by_column_none. intros k e Hin. unfold column.
    rewrite bool_decide_eq_true_2 by reflexivity. intros [= Hc].
    now apply (Hnone k e Hin). }
  split.
  - rewrite get_mapping_fst. unfold mapping_of. rewrite Hports.
    now destruct (device_entAliasMappingTable (snmp self)).
  - destruct (walk_alias_ifTable self) as [Hc Hf]. cbv zeta in Hc, Hf.
    set (s0 := snd (walk ("ENTITY-MIB", "entAliasMappingTable")
                         device_entAliasMappingTable self)) in *.
    assert (Hs : snd (get_mapping self) = load s0).
    { pose proof (get_mapping_state self) as Hs. cbv zeta in Hs. fold s0 in Hs.
      destruct (device_entAliasMappingTable (snmp self)) as [|a aliases] eqn:Ha;
        [|exact Hs].
      unfold get_mapping. unfold bindM at 1. cbn [walk]. rewrite Ha. fold s0.
      rewrite _descr_based_mapping_no_ports; [reflexivity|].
      replace (the_table s0) with (the_table self); [exact Hports | reflexivity]. }
    rewrite Hs. destruct (load_ifTable s0) as [Hc' Hf']. split; congruence.
Qed.

Lemma get_mapping_no_ports_witness :
  fst (get_mapping (init (device cyclic_table [if_row 10 "Gi1/1"] []))) = Ok []
  /\ _ifTable (snd (get_mapping (init (device cyclic_table [if_row 10 "Gi1/1"] []))))
     = None.
Proof.
  destruct (get_mapping_no_ports (init (device cyclic_table [if_row 10 "Gi1/1"] [])))
    as (Hr & Hc & _).
  - intros k e [[= <- <-]|[[= <- <-]|[]]]; discriminate.
  - split; [exact Hr | exact Hc].
Defined.

(** ** The stack *)

Lemma climb_more t : forall frames e r,
  climb frames t e = r -> r <> Raise RuntimeError ->
  forall frames', (frames <= frames')%nat -> climb frames' t e = r.
Proof.
  induction frames as [|f IH]; intros e r Hr Hne frames' Hle.
  - cbn in Hr. congruence.
  - destruct frames' as [|f']; [lia|]. cbn [climb] in *. unfold bind in *.
    destruct (getitem t (entPhysicalContainedIn e)) as [parent|]; [|exact Hr].
    destruct (autolad_parents_getitem (entPhysicalClass e)) as [valid|]; [|exact Hr].
    destruct (bool_decide (entPhysicalClass parent ∈ valid)); [exact Hr|].
    apply (IH _ _ Hr Hne). lia.
Qed.

Lemma chain_more t : forall frames e parents r,
  chain frames t e parents = r -> r <> Raise RuntimeError ->
  forall frames', (frames <= frames')%nat -> chain frames' t e parents = r.
Proof.
  induction frames as [|f IH]; intros e parents r Hr Hne frames' Hle.
  - cbn in Hr. congruence.
  - destruct frames' as [|f']; [lia|]. cbn [chain] in *.
    destruct (bool_decide (entPhysicalClass e = "'chassis'")); [exact Hr|].
    unfold bind in *. destruct (climb f t e) as [parent|x] eqn:Hc.
    + rewrite (climb_more t f e (Ok parent) Hc ltac:(discriminate) f' ltac:(lia)).
      apply (IH _ _ _ Hr Hne). lia.
    + rewrite (climb_more t f e (Raise x) Hc ltac:(congruence) f' ltac:(lia)).
      exact Hr.
Qed.

(** X15: the stack matters only when it runs out: an outcome of get_parent
    or get_parents other than the RuntimeError of the recursion limit is
    the outcome of the call with any larger stack. *)
Theorem outcome_with_more_stack (self : AutoLoad) (frames frames' : nat) (e : entity)
    (parents : list entity) :
  (frames <= frames')%nat ->
  (fst (get_parent frames e self) <> Raise RuntimeError ->
   fst (get_parent frames' e self) = fst (get_parent frames e self))
  /\ (fst (get_parents frames e parents self) <> Raise RuntimeError ->
      fst (get_parents frames' e parents self) = fst (get_parents frames e parents self)).
Proof.
  intros Hle. rewrite !get_parent_fst, !get_parents_fst. split; intros Hne.
  - now apply (climb_more _ frames).
  - now apply (chain_more _ frames).
Qed.

Lemma outcome_with_more_stack_witness :
  fst (get_parent 1000 slotted_port (init (device slotted_table [] [])))
  = fst (get_parent 4 slotted_port (init (device slotted_table [] [])))
  /\ fst (get_parents 1000 dangling_port [] (init (device dangling_table [] [])))
     = fst (get_parents 2 dangling_port [] (init (device dangling_table [] []))).
Proof.
  split.
  - destruct (outcome_with_more_stack (init (device slotted_table [] [])) 4 1000
                slotted_port []) as [Hp _]; [lia|].
    apply Hp. vm_compute. discriminate.
  - destruct (outcome_with_more_stack (init (device dangling_table [] [])) 2 1000
                dangling_port []) as [_ Hps]; [lia|].
    apply Hps. vm_compute. discriminate.
Defined.

Lemma record_leaves_raises frames t : forall ls hierarchy x,
  record_leaves frames t ls hierarchy = Raise x ->
  exists e, In e ls /\ chain frames t e [] = Raise x.
Proof.
  induction ls as [|e ls IH]; intros hierarchy x; cbn [record_leaves]; [discriminate|].
  unfold bind. destruct (chain frames t e []) as [chn|y] eqn:Hc.
  - destruct (record_chain_returns chn (range_down (length chn - 1)) hierarchy)
      as [h1 ->].
    { intros p Hp. apply range_down_spec in Hp. lia. }
    intros H. destruct (IH _ _ H) as (e' & He' & Hx). exists e'. split; [now right | exact Hx].
  - intros [= <-]. exists e. split; [now left | exact Hc].
Qed.

(** X16: get_hierarchy raises nothing of its own: an exception that leaves
    it is the exception get_parents raises for one of the ports or power
    supplies of the table. *)
Theorem get_hierarchy_raises (self : AutoLoad) (frames : nat) (x : exn) :
  fst (get_hierarchy frames self) = Raise x ->
  exists k e, In (k, e) (the_table self)
    /\ (entPhysicalClass e = "'port'" \/ entPhysicalClass e = "'powerSupply'")
    /\ fst (get_parents frames e [] self) = Raise x.
Proof.
  rewrite get_hierarchy_run. cbn [fst]. unfold hierarchy_of, bind.
  destruct (record_leaves _ _ _ _) as [h|y] eqn:Hrec; [discriminate|].
  intros [= <-]. destruct (record_leaves_raises _ _ _ _ _ Hrec) as (e & He & Hc).
  destruct (values_In _ _ (leaves_rows _ _ He)) as [k Hk].
  exists k, e. split; [exact Hk|]. split; [exact (leaves_class _ _ He)|].
  now rewrite get_parents_fst.
Qed.

Lemma get_hierarchy_raises_witness :
  exists k e, In (k, e) dangling_table
    /\ (entPhysicalClass e = "'port'" \/ entPhysicalClass e = "'powerSupply'")
    /\ fst (get_parents 5 e [] (init (device dangling_table [] [])))
       = Raise (KeyError (IntKey 99)).
Proof.
  apply (get_hierarchy_raises (init (device dangling_table [] [])) 5).
  reflexivity.
Defined.
